(** * Neutron guide transport: [acc/components/optics/guide.py]

    A shallow embedding of the per-neutron transport kernel of the guide
    component ([calc_reflectivity] and [propagate]) and the properties
    of it that the specification states.

    Numbers.  The kernel computes on Python floats.  They are modelled
    by the real numbers [R]: rounding is not modelled, so every equation
    below is an equation of exact arithmetic.

    Division.  A quotient whose denominator is zero is not a real number
    (the compiled kernel produces an infinity or a NaN there, the plain
    interpreter raises [ZeroDivisionError]).  A quotient is therefore a
    [result R]: [Ok q], or [Fault ZeroDivision].  A quotient may be
    computed and stored without harm; a run that has to read a faulted
    quotient ends in that fault, and nothing further is said about it. *)

From Stdlib Require Import Reals Lra Lia List ZArith Bool QArith Qround Permutation.
Import ListNotations.
Local Open Scope R_scope.

(** ** Faults and the error monad *)

Inductive fault : Set :=
| ZeroDivision   (* a quotient by zero was read *)
| UnboundLocal.  (* a local variable was read before any assignment *)

Inductive result (A : Type) : Type :=
| Ok (a : A)
| Fault (f : fault).

Arguments Ok {A} a.
Arguments Fault {A} f.

Definition bind {A B : Type} (c : result A) (k : A -> result B) : result B :=
  match c with
  | Ok a => k a
  | Fault f => Fault f
  end.

Notation "x <- c ;; k" := (bind c (fun x => k))
  (at level 61, c at next level, right associativity).
Notation "' p <- c ;; k" := (bind c (fun x => let p := x in k))
  (at level 61, p pattern, c at next level, right associativity).

(** ** Arithmetic of the kernel *)

(** [a / b] of the source. *)
Definition fdiv (a b : R) : result R :=
  if Req_dec_T b 0 then Fault ZeroDivision else Ok (a / b).

Infix "/?" := fdiv (at level 40, left associativity).

(** The comparisons [<], [<=], [>], [>=] of the source, as booleans. *)
Definition Rltb (a b : R) : bool := if Rlt_dec a b then true else false.
Definition Rleb (a b : R) : bool := if Rle_dec a b then true else false.
Definition Rgtb (a b : R) : bool := Rltb b a.
Definition Rgeb (a b : R) : bool := Rleb b a.

(** [math.inf] is the only non-real value the source names: [best_time]
    starts from it.  [None] stands for it, and [inf > u] holds for every
    real [u]. *)
Definition gt_inf (best_time : option R) (u : R) : bool :=
  match best_time with
  | None => true
  | Some b => Rgtb b u
  end.

(** ** The reflectivity model *)

(** [calc_reflectivity(Q, R0, Qc, alpha, m, W)]. *)
Definition calc_reflectivity (Q R0 Qc alpha m W : R) : result R :=
  let R := R0 in
  if Rgtb Q Qc then
    u <- (Q - m * Qc) /? W ;;
    Ok (R * ((1 - tanh u) * (1 - alpha * (Q - Qc)) / 2))
  else Ok R.

(** ** Particle records

    One row of the neutron array: [in_neutron[:6]] is position and
    velocity, [in_neutron[-2]] the time and [in_neutron[-1]] the
    probability.  Whatever the row holds in between (the spin entries of
    the framework's layout) is kept in [spin]; the kernel never touches
    it.  The same record holds the kernel's local variables
    [x, y, z, vx, vy, vz, t, prob]. *)

Record neutron : Type := Neutron {
  x : R; y : R; z : R;
  vx : R; vy : R; vz : R;
  spin : list R;
  t : R;
  prob : R
}.

(** [in_neutron[-1] = p]. *)
Definition set_prob (n : neutron) (p : R) : neutron :=
  Neutron (x n) (y n) (z n) (vx n) (vy n) (vz n) (spin n) (t n) p.

(** How one pass through the body of the bounce loop ends. *)
Inductive control : Set :=
| Break      (* the loop is left by [break] *)
| Continue.  (* the body ran to its end *)

(** [max_bounces = 100000]. *)
Definition max_bounces : nat := Z.to_nat 100000.

(** ** Single-particle transport *)

Module Guide.

Section Kernel.

(** [V2K] is imported from [mcni.utils.conversion], which is not part
    of this repository: the kernel is parametric in it. *)
Variable V2K : R.

(** The guide geometry and the mirror parameters, in the order of the
    arguments of [propagate]. *)
Variables ww hh hw1 hh1 l : R.
Variables R0 Qc alpha m W : R.

(** *** The locals of one loop iteration *)

Definition av (s : neutron) : R := l * vx s.
Definition bv (s : neutron) : R := ww * vz s.
Definition ah (s : neutron) : R := l * vy s.
Definition bh (s : neutron) : R := hh * vz s.

Definition vdotn_v1 (s : neutron) : R := bv s + av s.  (* Left vertical *)
Definition vdotn_v2 (s : neutron) : R := bv s - av s.  (* Right vertical *)
Definition vdotn_h1 (s : neutron) : R := bh s + ah s.  (* Lower horizontal *)
Definition vdotn_h2 (s : neutron) : R := bh s - ah s.  (* Upper horizontal *)

Definition cv1 (s : neutron) : R := - hw1 * l - z s * ww.
Definition cv2 (s : neutron) : R := x s * l.
Definition ch1 (s : neutron) : R := - hh1 * l - z s * hh.
Definition ch2 (s : neutron) : R := y s * l.

(** [t1 = (l - z) / vz], for the guide exit. *)
Definition t1 (s : neutron) : result R := (l - z s) /? vz s.

Definition vdots (s : neutron) : list R :=
  [-1; vdotn_v1 s; vdotn_v2 s; vdotn_h1 s; vdotn_h2 s].

(** The five quotients are computed before any of them is looked at. *)
Definition times (s : neutron) : list (result R) :=
  [t1 s;
   (cv1 s - cv2 s) /? vdotn_v1 s;
   (cv1 s + cv2 s) /? vdotn_v2 s;
   (ch1 s - ch2 s) /? vdotn_h1 s;
   (ch1 s + ch2 s) /? vdotn_h2 s].

(** *** Choice of the surface

    One pass of [for i in range(0, 5)].  The accumulator is the pair
    [(best_time, side)] once some candidate has been taken, and [None]
    while [best_time] is still [inf] and [side] not assigned.  The
    [and] of the source does not evaluate [best_time > times[i]] when
    [vdots[i] < 0] fails, so [times[i]] is read only behind that
    test. *)
Definition select_step (vd : list R) (tm : list (result R))
           (acc : result (option (R * nat))) (i : nat)
  : result (option (R * nat)) :=
  best <- acc ;;
  if Rltb (nth i vd 0) 0 then
    ti <- nth i tm (Fault UnboundLocal) ;;
    if gt_inf (option_map fst best) ti then Ok (Some (ti, i)) else Ok best
  else Ok best.

Definition select (vd : list R) (tm : list (result R))
  : result (option (R * nat)) :=
  fold_left (select_step vd tm) (seq 0 5) (Ok None).

(** *** Reflection

    The two branches of [if side < 3], giving the new velocity and the
    momentum transfer [q]. *)
Definition reflection (side : nat) (s : neutron) : result (R * R * R * R) :=
  if (side <? 3)%nat then
    (* left or right vertical mirror *)
    let vdot := nth (side - 1) [vdotn_v1 s; vdotn_v2 s] 0 in
    let nlen2 := l * l + ww * ww in
    q <- V2K * (-2) * vdot /? sqrt nlen2 ;;
    d <- 2 * vdot /? nlen2 ;;
    let vxd := nth (side - 1) [d * l; - d * l] 0 in
    Ok (vx s - vxd, vy s, vz s - d * ww, q)
  else
    (* lower or upper horizontal mirror *)
    let vdot := nth (side - 3) [vdotn_h1 s; vdotn_h2 s] 0 in
    let nlen2 := l * l + hh * hh in
    q <- V2K * (-2) * vdot /? sqrt nlen2 ;;
    d <- 2 * vdot /? nlen2 ;;
    let vyd := nth (side - 3) [d * l; - d * l] 0 in
    Ok (vx s, vy s - vyd, vz s - d * hh, q).

(** *** One pass through the body of the bounce loop

    [side] is assigned afresh in every pass that reaches [if side == 0]
    (see [select_exit_first] and [bounce_step_side_assigned]), so the
    value a previous pass left in it is never observed and the
    accumulator of [select] starts empty. *)
Definition bounce_step (s : neutron) : result (control * neutron) :=
  sel <- select (vdots s) (times s) ;;
  match sel with
  | None => Fault UnboundLocal
  | Some (best_time, side) =>
    if (side =? 0)%nat then
      (* Neutron left guide. *)
      Ok (Break, s)
    else
      let t1 := best_time in
      (* propagate time t1 to move to reflection point *)
      let x' := x s + vx s * t1 in
      let y' := y s + vy s * t1 in
      let z' := z s + vz s * t1 in
      let t' := t s + t1 in
      (* reflection *)
      '(vx', vy', vz', q) <- reflection side s ;;
      R <- calc_reflectivity q R0 Qc alpha m W ;;
      let prob' := prob s * R in
      let s' := Neutron x' y' z' vx' vy' vz' (spin s) t' prob' in
      if Rleb prob' 0 then Ok (Break, s') else Ok (Continue, s')
  end.

(** *** The bounce loop

    [for nb in range(n)].  The first component counts the passes
    through the body that were started. *)
Fixpoint bounce_loop (n : nat) (s : neutron) : nat * result neutron :=
  match n with
  | O => (O, Ok s)
  | S n' =>
    match bounce_step s with
    | Fault f => (1%nat, Fault f)
    | Ok (Break, s') => (1%nat, Ok s')
    | Ok (Continue, s') =>
      let (k, r) := bounce_loop n' s' in (S k, r)
    end
  end.

(** *** [propagate]

    The locals after "propagate to z=0", and the test "check opening". *)
Definition to_entrance (n : neutron) (dt : R) : neutron :=
  Neutron (x n + vx n * dt) (y n + vy n * dt) 0
          (vx n) (vy n) (vz n) (spin n) (t n + dt) (prob n).

Definition misses_opening (s : neutron) : bool :=
  Rleb (x s) (- hw1) || Rgeb (x s) hw1 || Rleb (y s) (- hh1) || Rgeb (y s) hh1.

(** The result is the row [in_neutron] as the call leaves it, together
    with the number of passes through the loop body.  On the early
    [return] only [in_neutron[-1]] has been written; after the loop
    all locals are written back. *)
Definition run_propagate (in_neutron : neutron) : nat * result neutron :=
  match - z in_neutron /? vz in_neutron with
  | Fault f => (O, Fault f)
  | Ok dt =>
    let s0 := to_entrance in_neutron dt in
    if misses_opening s0 then (O, Ok (set_prob in_neutron 0))
    else bounce_loop max_bounces s0
  end.

Definition propagate (in_neutron : neutron) : result neutron :=
  snd (run_propagate in_neutron).

Definition bounces (in_neutron : neutron) : nat :=
  fst (run_propagate in_neutron).

(** *** Vocabulary of the properties *)

(** [k] passes in a row that all ran to the end of the body. *)
Inductive continues : nat -> neutron -> neutron -> Prop :=
| continues_O (s : neutron) : continues O s s
| continues_S (k : nat) (s s1 s2 : neutron) :
    bounce_step s = Ok (Continue, s1) ->
    continues k s1 s2 ->
    continues (S k) s s2.

(** The normal of each mirror, pointing into the guide and of length
    [sqrt nlen2]: [vdotn_v1 .. vdotn_h2] are the products of the
    velocity with these. *)
Definition normal (side : nat) : R * R * R :=
  match side with
  | 1%nat => (l, 0, ww)
  | 2%nat => (- l, 0, ww)
  | 3%nat => (0, l, hh)
  | 4%nat => (0, - l, hh)
  | _ => (0, 0, 0)
  end.

(** Strictly between the four mirror planes at its [z]. *)
Definition inside (s : neutron) : Prop :=
  cv1 s - cv2 s < 0 /\ cv1 s + cv2 s < 0 /\
  ch1 s - ch2 s < 0 /\ ch1 s + ch2 s < 0.

(** What [select] guarantees about its accumulator once the candidates
    below [k] have been looked at. *)
Definition earliest (vd : list R) (tm : list (result R)) (k : nat)
           (best : option (R * nat)) : Prop :=
  match best with
  | None => forall j, (j < k)%nat -> ~ nth j vd 0 < 0
  | Some (bt, i) =>
    (i < k)%nat /\ nth i vd 0 < 0 /\ nth i tm (Fault UnboundLocal) = Ok bt /\
    forall j, (j < k)%nat -> nth j vd 0 < 0 ->
      exists tj, nth j tm (Fault UnboundLocal) = Ok tj /\
                 bt <= tj /\ ((j < i)%nat -> bt < tj)
  end.

End Kernel.

End Guide.

Import Guide.

(** ** Vectors, for the statements about reflection *)

Definition vec : Type := (R * R * R)%type.

Definition dot (a b : vec) : R :=
  let '(a1, a2, a3) := a in
  let '(b1, b2, b3) := b in
  a1 * b1 + a2 * b2 + a3 * b3.

Definition velocity (s : neutron) : vec := (vx s, vy s, vz s).

(** [v - c * n]. *)
Definition minus_scaled (v : vec) (c : R) (n : vec) : vec :=
  let '(v1, v2, v3) := v in
  let '(n1, n2, n3) := n in
  (v1 - c * n1, v2 - c * n2, v3 - c * n3).

Definition speed2 (s : neutron) : R := dot (velocity s) (velocity s).

(** The locals after a bounce at time [bt] that leaves velocity [v'] and
    multiplies the probability by [R]. *)
Definition after_bounce (s : neutron) (bt : R) (v' : vec) (R : R) : neutron :=
  let '(vx', vy', vz') := v' in
  Neutron (x s + vx s * bt) (y s + vy s * bt) (z s + vz s * bt)
          vx' vy' vz' (spin s) (t s + bt) (prob s * R).

(** The end of the loop body: [if prob <= 0: break]. *)
Definition absorbed_or_not (s : neutron) : control * neutron :=
  if Rleb (prob s) 0 then (Break, s) else (Continue, s).

(** ** Inputs of the worked examples

    A straight guide of half-width and half-height 1 and of length 1
    ([ww = hh = 0], [hw1 = hh1 = 1], [l = 1]) is used throughout. *)

(** A value for [V2K]: 1.58801e-3, the wavenumber in 1/Angstrom of a
    neutron of velocity 1 m/s. *)
Definition V2K_value : R := 158801 / 100000000.

(** On the axis, flying along it. *)
Definition on_axis : neutron := Neutron 0 0 0 0 0 1 [] 0 1.

(** From the centre of the entrance towards the right mirror. *)
Definition oblique : neutron := Neutron 0 0 0 1 0 (1/2) [] 0 1.

(** [oblique] after its reflection off the right mirror, with
    reflectivity [R]. *)
Definition oblique_reflected (R : R) : neutron :=
  Neutron 1 0 (1/2) (-1) 0 (1/2) [] 1 (1 * R).

(** No velocity along the guide. *)
Definition stalled : neutron := Neutron 0 0 0 1 0 0 [] 0 1.

(** Aimed beside the opening: at the entrance plane [x = 2]. *)
Definition beside : neutron := Neutron 2 0 (-1) 0 0 1 [] 0 1.

(** Nearly across the guide: the particle crosses from mirror to mirror
    and advances by two millionths of the length per crossing.
    [zigzag k] are the locals after [k] reflections. *)
Definition zigzag (k : nat) : neutron :=
  match k with
  | O => Neutron 0 0 0 1 0 (1/1000000) [] 0 1
  | S j =>
    Neutron (if Nat.even j then 1 else -1) 0
            (0 + (2 * INR j + 1) / 1000000)
            (if Nat.even j then -1 else 1) 0 (1/1000000) []
            (0 + (2 * INR j + 1)) 1
  end.

(** A converging guide, entrance 8 x 2, exit 2 x 2, length 4
    ([ww = -3], [hh = 0], [hw1 = 4], [hh1 = 1], [l = 4]), and a neutron
    that enters it at the centre with velocity [(1, 0, 1)]. *)
Definition converging_start : neutron := Neutron 0 0 0 1 0 1 [] 0 1.

(** [converging_start] after its reflection off the right mirror, with
    reflectivity 99/100: it flies back towards the entrance. *)
Definition converging_reflected : neutron :=
  Neutron (16/7) 0 (16/7) (-31/25) 0 (-17/25) [] (16/7) (1 * (99/100)).

(** ** The region between the mirrors *)

Module Region.

Section Planes.

Variables ww hh hw1 hh1 l : R.

(** Between the four mirror planes at its [z], the planes included: the
    terms [cv1 - cv2], [cv1 + cv2], [ch1 - ch2], [ch1 + ch2] of a
    pass, the numerators of the mirror times, are not positive. *)
Definition between (s : neutron) : Prop :=
  cv1 ww hw1 l s - cv2 l s <= 0 /\ cv1 ww hw1 l s + cv2 l s <= 0 /\
  ch1 hh hh1 l s - ch2 l s <= 0 /\ ch1 hh hh1 l s + ch2 l s <= 0.

(** The numerator of the time of mirror [side]: zero exactly on the
    plane of that mirror. *)
Definition plane_term (side : nat) (s : neutron) : R :=
  match side with
  | 1%nat => cv1 ww hw1 l s - cv2 l s
  | 2%nat => cv1 ww hw1 l s + cv2 l s
  | 3%nat => ch1 hh hh1 l s - ch2 l s
  | 4%nat => ch1 hh hh1 l s + ch2 l s
  | _ => 0
  end.

(** On the plane of mirror [side]: the left and right mirrors run from
    [x = -hw1] and [x = hw1] at [z = 0] to [x = -(hw1 + ww)] and
    [x = hw1 + ww] at [z = l], the lower and upper ones likewise in
    [y]. *)
Definition on_mirror (side : nat) (s : neutron) : Prop :=
  match side with
  | 1%nat => x s * l = - (hw1 * l + ww * z s)
  | 2%nat => x s * l = hw1 * l + ww * z s
  | 3%nat => y s * l = - (hh1 * l + hh * z s)
  | 4%nat => y s * l = hh1 * l + hh * z s
  | _ => False
  end.

End Planes.

End Region.

Import Region.

(** ** The constructor of the component

    [Guide.__init__] turns the entrance size [w1 x h1], the exit size
    [w2 x h2] and the length [l] into the geometry arguments
    [(ww, hh, hw1, hh1, l)] of the kernel; [float] is the identity on
    real numbers. *)
Definition geometry (w1 h1 w2 h2 l : R) : R * R * R * R * R :=
  let ww := 5/10 * (w2 - w1) in
  let hh := 5/10 * (h2 - h1) in
  let hw1 := 5/10 * w1 in
  let hh1 := 5/10 * h1 in
  (ww, hh, hw1, hh1, l).

(** The neutron the constructor sends through the new guide: from the
    origin with velocity [((w1 + w2) / 2, 0, l / 2)], probability 1 at
    time 0.  [sp] stands for the spin entries the framework gives it. *)
Definition warm_up (w1 w2 l : R) (sp : list R) : neutron :=
  Neutron 0 0 0 ((w1 + w2) / 2) 0 (l / 2) sp 0 1.

(** Half the width of a guide that tapers linearly from [w1] at [z = 0]
    to [w2] at [z = l]. *)
Definition half_size (w1 w2 l z : R) : R := w1 / 2 + (w2 - w1) / 2 * (z / l).

(** ** The batch kernel *)

(** [threads_per_block = 512]. *)
Definition threads_per_block : nat := 512.

(** [number_of_blocks = ceil(neutron_count / threads_per_block)]: the
    quotient of the two integers is a rational number. *)
Definition number_of_blocks (neutron_count : nat) : Z :=
  Qceiling (inject_Z (Z.of_nat neutron_count)
            / inject_Z (Z.of_nat threads_per_block))%Q.

(** [cuda.grid(1)] of the thread [threadIdx] of the block [blockIdx]. *)
Definition grid_index (blockIdx threadIdx : nat) : nat :=
  (threadIdx + blockIdx * threads_per_block)%nat.

(** The values of [cuda.grid(1)] over a grid of [blocks] blocks: block
    after block, thread after thread. *)
Definition grid_threads (blocks : nat) : list nat :=
  flat_map (fun blockIdx => map (grid_index blockIdx) (seq 0 threads_per_block))
           (seq 0 blocks).

(** [neutrons[x] = row]. *)
Fixpoint set_row (neutrons : list neutron) (x : nat) (row : neutron)
  : list neutron :=
  match neutrons, x with
  | [], _ => []
  | _ :: rest, O => row :: rest
  | r :: rest, S x' => r :: set_row rest x' row
  end.

Module Batch.

Section Kernel.

Variable V2K : R.
Variables ww hh hw1 hh1 l : R.
Variables R0 Qc alpha m W : R.

(** [process_kernel] as run by the thread whose [cuda.grid(1)] is [x]:
    [nth_error] gives a row exactly when [x < len(neutrons)], and
    [propagate] works on that row in place. *)
Definition process_kernel (neutrons : list neutron) (x : nat)
  : result (list neutron) :=
  match nth_error neutrons x with
  | Some row =>
    row' <- propagate V2K ww hh hw1 hh1 l R0 Qc alpha m W row ;;
    Ok (set_row neutrons x row')
  | None => Ok neutrons
  end.

(** The threads own distinct rows and share nothing else, so a run of
    a grid is the threads taking their turns in some order, the
    [schedule]. *)
Definition run_threads (schedule : list nat) (neutrons : list neutron)
  : result (list neutron) :=
  fold_left (fun acc x => a <- acc ;; process_kernel a x) schedule (Ok neutrons).

(** Every row transported, one after the other. *)
Fixpoint transport_all (neutrons : list neutron) : result (list neutron) :=
  match neutrons with
  | [] => Ok []
  | row :: rest =>
    row' <- propagate V2K ww hh hw1 hh1 l R0 Qc alpha m W row ;;
    rest' <- transport_all rest ;;
    Ok (row' :: rest')
  end.

End Kernel.

End Batch.

Import Batch.

(** ** Basic facts about the arithmetic *)

Lemma fdiv_ok (a b : R) : b <> 0 -> a /? b = Ok (a / b).
Proof.
  intros Hb. unfold fdiv. destruct (Req_dec_T b 0) as [E | _]; [contradiction | reflexivity].
Qed.

Lemma fdiv_fault (a : R) : a /? 0 = Fault ZeroDivision.
Proof.
  unfold fdiv. destruct (Req_dec_T 0 0) as [_ | N]; [reflexivity | now elim N].
Qed.

Lemma fdiv_inv (a b q : R) : a /? b = Ok q -> b <> 0 /\ q = a / b.
Proof.
  unfold fdiv. destruct (Req_dec_T b 0); intros H; [discriminate | split; congruence].
Qed.

Lemma Rltb_true (a b : R) : Rltb a b = true <-> a < b.
Proof. unfold Rltb. destruct (Rlt_dec a b); split; intros; (easy || lra). Qed.

Lemma Rltb_false (a b : R) : Rltb a b = false <-> b <= a.
Proof. unfold Rltb. destruct (Rlt_dec a b); split; intros; (easy || lra). Qed.

Lemma Rleb_true (a b : R) : Rleb a b = true <-> a <= b.
Proof. unfold Rleb. destruct (Rle_dec a b); split; intros; (easy || lra). Qed.

Lemma Rleb_false (a b : R) : Rleb a b = false <-> b < a.
Proof. unfold Rleb. destruct (Rle_dec a b); split; intros; (easy || lra). Qed.

Lemma Rgtb_true (a b : R) : Rgtb a b = true <-> a > b.
Proof. unfold Rgtb. rewrite Rltb_true. lra. Qed.

Lemma Rgtb_false (a b : R) : Rgtb a b = false <-> a <= b.
Proof. unfold Rgtb. apply Rltb_false. Qed.

Lemma Rgeb_true (a b : R) : Rgeb a b = true <-> a >= b.
Proof. unfold Rgeb. rewrite Rleb_true. lra. Qed.

Lemma Rgeb_false (a b : R) : Rgeb a b = false <-> a < b.
Proof. unfold Rgeb. apply Rleb_false. Qed.

(** ** The reflectivity model: properties *)

Lemma calc_reflectivity_below (Q R0 Qc alpha m W : R) :
  Q <= Qc -> calc_reflectivity Q R0 Qc alpha m W = Ok R0.
Proof.
  intros Hle. unfold calc_reflectivity.
  apply Rgtb_false in Hle. now rewrite Hle.
Qed.

Lemma calc_reflectivity_above (Q R0 Qc alpha m W : R) :
  Q > Qc ->
  calc_reflectivity Q R0 Qc alpha m W =
  bind ((Q - m * Qc) /? W)
       (fun u => Ok (R0 * (1 - tanh u) * (1 - alpha * (Q - Qc)) / 2)).
Proof.
  intros Hgt. unfold calc_reflectivity.
  apply Rgtb_true in Hgt. rewrite Hgt.
  destruct ((Q - m * Qc) /? W) as [u | f]; cbn [bind]; [| reflexivity].
  f_equal. lra.
Qed.

Lemma calc_reflectivity_above_value (Q R0 Qc alpha m W : R) :
  Q > Qc -> W <> 0 ->
  calc_reflectivity Q R0 Qc alpha m W =
  Ok (R0 * (1 - tanh ((Q - m * Qc) / W)) * (1 - alpha * (Q - Qc)) / 2).
Proof.
  intros Hgt HW. rewrite (calc_reflectivity_above _ _ _ _ _ _ Hgt).
  now rewrite (fdiv_ok _ _ HW).
Qed.

(** C2. For all real arguments [calc_reflectivity] returns exactly [R0]
    whenever [Q <= Qc], and exactly
    [R0 * (1 - tanh((Q - m*Qc)/W)) * (1 - alpha*(Q - Qc)) / 2]
    whenever [Q > Qc]: the quotient by [W] is the quotient of the
    kernel, a real number for [W <> 0]. *)
Theorem calc_reflectivity_spec (Q R0 Qc alpha m W : R) :
  (Q <= Qc -> calc_reflectivity Q R0 Qc alpha m W = Ok R0) /\
  (Q > Qc ->
   calc_reflectivity Q R0 Qc alpha m W =
   bind ((Q - m * Qc) /? W)
        (fun u => Ok (R0 * (1 - tanh u) * (1 - alpha * (Q - Qc)) / 2))) /\
  (Q > Qc -> W <> 0 ->
   calc_reflectivity Q R0 Qc alpha m W =
   Ok (R0 * (1 - tanh ((Q - m * Qc) / W)) * (1 - alpha * (Q - Qc)) / 2)).
Proof.
  split; [| split].
  - apply calc_reflectivity_below.
  - apply calc_reflectivity_above.
  - apply calc_reflectivity_above_value.
Qed.

Lemma calc_reflectivity_spec_witness :
  calc_reflectivity (1/100) (99/100) (1/2) 6 2 (3/1000) = Ok (99/100) /\
  calc_reflectivity 1 (99/100) (1/2) 6 2 (3/1000) =
  Ok ((99/100) * (1 - tanh ((1 - 2 * (1/2)) / (3/1000))) * (1 - 6 * (1 - 1/2)) / 2).
Proof.
  split.
  - apply (proj1 (calc_reflectivity_spec (1/100) (99/100) (1/2) 6 2 (3/1000))). lra.
  - apply (proj2 (proj2 (calc_reflectivity_spec 1 (99/100) (1/2) 6 2 (3/1000)))); lra.
Defined.

(** ** Choice of the surface *)

Section Selection.

Variables (vd : list R) (tm : list (result R)).

Lemma select_fold_fault (f : fault) (idx : list nat) :
  fold_left (select_step vd tm) idx (Fault f) = Fault f.
Proof. induction idx as [| i idx IH]; [reflexivity | exact IH]. Qed.

(** One candidate more: the accumulator stays the earliest. *)
Lemma select_step_earliest (a : nat) (acc best : option (R * nat)) :
  earliest vd tm a acc ->
  select_step vd tm (Ok acc) a = Ok best ->
  earliest vd tm (S a) best.
Proof.
  intros Hacc. unfold select_step, bind.
  destruct (Rltb (nth a vd 0) 0) eqn:Hneg.
  - apply Rltb_true in Hneg.
    destruct (nth a tm (Fault UnboundLocal)) as [ta | f] eqn:Hta; [| discriminate].
    destruct (gt_inf (option_map fst acc) ta) eqn:Hgt; intros E; injection E as <-.
    + (* candidate [a] is taken *)
      cbn. repeat split; [lia | exact Hneg | exact Hta |].
      intros j Hj Hnj.
      destruct (Nat.eq_dec j a) as [-> | Hne].
      * exists ta. repeat split; [exact Hta | lra | lia].
      * assert (Hja : (j < a)%nat) by lia.
        destruct acc as [[bt i] |]; cbn in Hacc, Hgt.
        -- destruct Hacc as (_ & _ & _ & Hall).
           destruct (Hall j Hja Hnj) as (tj & Htj & Hle & _).
           apply Rgtb_true in Hgt.
           exists tj. repeat split; [exact Htj | lra | intros _; lra].
        -- elim (Hacc j Hja Hnj).
    + (* candidate [a] comes no earlier than the best so far *)
      destruct acc as [[bt i] |]; cbn in Hgt; [| discriminate].
      apply Rgtb_false in Hgt. cbn in Hacc |- *.
      destruct Hacc as (Hi & Hni & Hbt & Hall).
      repeat split; [lia | exact Hni | exact Hbt |].
      intros j Hj Hnj.
      destruct (Nat.eq_dec j a) as [-> | Hne].
      * exists ta. repeat split; [exact Hta | exact Hgt | lia].
      * apply Hall; [lia | exact Hnj].
  - apply Rltb_false in Hneg. intros E; injection E as <-.
    destruct acc as [[bt i] |]; cbn in Hacc |- *.
    + destruct Hacc as (Hi & Hni & Hbt & Hall).
      repeat split; [lia | exact Hni | exact Hbt |].
      intros j Hj Hnj.
      destruct (Nat.eq_dec j a) as [-> | Hne]; [lra | apply Hall; [lia | exact Hnj]].
    + intros j Hj Hnj.
      destruct (Nat.eq_dec j a) as [-> | Hne]; [lra | apply (Hacc j); [lia | exact Hnj]].
Qed.

(** The loop over the candidates [a, a+1, ..., a+n-1]. *)
Lemma select_fold_earliest (n a : nat) (acc best : option (R * nat)) :
  earliest vd tm a acc ->
  fold_left (select_step vd tm) (seq a n) (Ok acc) = Ok best ->
  earliest vd tm (a + n) best.
Proof.
  revert a acc. induction n as [| n IH]; intros a acc Hacc; cbn [seq fold_left].
  - intros E; injection E as <-. now rewrite Nat.add_0_r.
  - destruct (select_step vd tm (Ok acc) a) as [acc' | f] eqn:Hstep.
    + intros E. replace (a + S n)%nat with (S a + n)%nat by lia.
      apply (IH (S a) acc'); [| exact E].
      apply (select_step_earliest a acc); assumption.
    + rewrite select_fold_fault. discriminate.
Qed.

(** The loop does not fault when every time it has to read is a real
    number. *)
Lemma select_fold_total (n a : nat) (acc : option (R * nat)) :
  (forall j, (a <= j < a + n)%nat -> nth j vd 0 < 0 ->
             exists tj, nth j tm (Fault UnboundLocal) = Ok tj) ->
  exists best, fold_left (select_step vd tm) (seq a n) (Ok acc) = Ok best.
Proof.
  revert a acc. induction n as [| n IH]; intros a acc Hread; cbn [seq fold_left].
  - now exists acc.
  - assert (Hstep : exists acc', select_step vd tm (Ok acc) a = Ok acc').
    { unfold select_step, bind.
      destruct (Rltb (nth a vd 0) 0) eqn:Hneg; [| now exists acc].
      apply Rltb_true in Hneg.
      destruct (Hread a ltac:(lia) Hneg) as (ta & ->).
      destruct (gt_inf (option_map fst acc) ta); eauto. }
    destruct Hstep as (acc' & ->).
    apply IH. intros j Hj. apply Hread. lia.
Qed.

Lemma select_earliest_of (best : option (R * nat)) :
  select vd tm = Ok best -> earliest vd tm 5 best.
Proof.
  unfold select. intros E.
  apply (select_fold_earliest 5 0 None best); [| exact E].
  intros j Hj. lia.
Qed.

(** Conversely: the earliest candidate, first in the order among
    equals, is the one the loop returns. *)
Lemma select_unique (bt : R) (i : nat) :
  earliest vd tm 5 (Some (bt, i)) -> select vd tm = Ok (Some (bt, i)).
Proof.
  intros (Hi & Hni & Hbt & Hall).
  destruct (select_fold_total 5 0 None) as (best & Hsel).
  { intros j Hj Hnj. destruct (Hall j ltac:(lia) Hnj) as (tj & Htj & _). eauto. }
  fold (select vd tm) in Hsel. rewrite Hsel.
  apply select_earliest_of in Hsel.
  destruct best as [[bt' i'] |]; cbn in Hsel.
  - destruct Hsel as (Hi' & Hni' & Hbt' & Hall').
    destruct (Hall i' Hi' Hni') as (u & Hu & Hle & Hlt).
    destruct (Hall' i Hi Hni) as (u' & Hu' & Hle' & Hlt').
    assert (u = bt') by congruence. assert (u' = bt) by congruence. subst u u'.
    assert (i' = i).
    { destruct (Nat.lt_trichotomy i' i) as [Hc | [Hc | Hc]];
        [specialize (Hlt Hc); lra | exact Hc | specialize (Hlt' Hc); lra]. }
    subst i'. do 3 f_equal. lra.
  - elim (Hsel i Hi Hni).
Qed.

End Selection.

(** ** One pass through the loop body *)

Section Step.

Variable V2K : R.
Variables ww hh hw1 hh1 l : R.
Variables R0 Qc alpha m W : R.

Local Abbreviation vdots := (vdots ww hh l).
Local Abbreviation times := (times ww hh hw1 hh1 l).
Local Abbreviation normal := (normal ww hh l).
Local Abbreviation reflection := (reflection V2K ww hh l).
Local Abbreviation bounce_step := (bounce_step V2K ww hh hw1 hh1 l R0 Qc alpha m W).
Local Abbreviation reflectivity q := (calc_reflectivity q R0 Qc alpha m W).

(** The directional terms are the products of the velocity with the
    mirror normals. *)
Lemma vdots_dot (s : neutron) (side : nat) :
  (1 <= side <= 4)%nat ->
  nth side (vdots s) 0 = dot (velocity s) (normal side).
Proof.
  intros Hs.
  destruct side as [| [| [| [| [| side]]]]]; try lia;
    cbv [vdots nth normal dot velocity vdotn_v1 vdotn_v2 vdotn_h1 vdotn_h2 av bv ah bh];
    ring.
Qed.

(** Every time the choice has to read is a real number, provided the
    exit time is. *)
Lemma times_readable (s : neutron) :
  vz s <> 0 ->
  forall j, (0 <= j < 0 + 5)%nat -> nth j (vdots s) 0 < 0 ->
    exists tj, nth j (times s) (Fault UnboundLocal) = Ok tj.
Proof.
  intros Hvz j Hj.
  destruct j as [| [| [| [| [| j]]]]]; try lia;
    cbv [vdots times nth t1]; intros Hneg;
    eexists; apply fdiv_ok; lra.
Qed.

(** The exit plane is a candidate in every pass: [side] is assigned. *)
Lemma select_exit_first (s : neutron) :
  vz s <> 0 ->
  exists best_time side, select (vdots s) (times s) = Ok (Some (best_time, side)).
Proof.
  intros Hvz.
  destruct (select_fold_total (vdots s) (times s) 5 0 None (times_readable s Hvz))
    as (best & Hsel).
  destruct best as [[bt side] |]; [now exists bt, side |].
  apply select_earliest_of in Hsel. cbn in Hsel.
  elim (Hsel 0%nat); [lia | cbn; lra].
Qed.

(** The exit time is read in every pass. *)
Lemma select_reads_exit_time (s : neutron) :
  vz s = 0 -> select (vdots s) (times s) = Fault ZeroDivision.
Proof.
  intros Hvz. unfold select. cbn [seq fold_left].
  assert (E : select_step (vdots s) (times s) (Ok None) 0 = Fault ZeroDivision).
  { unfold select_step, bind. cbv [vdots times nth t1].
    rewrite (proj2 (Rltb_true (-1) 0)) by lra.
    rewrite Hvz, fdiv_fault. reflexivity. }
  rewrite E.
  exact (select_fold_fault (vdots s) (times s) ZeroDivision [1; 2; 3; 4]%nat).
Qed.

Lemma quotient_neg_neg (a b : R) : a < 0 -> b < 0 -> 0 < a / b.
Proof.
  intros Ha Hb. replace (a / b) with (- a / - b) by (field; lra).
  apply Rdiv_lt_0_compat; lra.
Qed.

Lemma nlen2_pos (a b c d : R) : a * c + b * d < 0 -> 0 < a * a + b * b.
Proof.
  intros H.
  destruct (Req_dec_T a 0) as [-> | Ha]; [| nra].
  destruct (Req_dec_T b 0) as [-> | Hb]; [lra | nra].
Qed.

(** The reflection off the mirror [side], whose directional term is
    negative. *)
Lemma reflection_ok (s : neutron) (side : nat) :
  (1 <= side <= 4)%nat ->
  dot (velocity s) (normal side) < 0 ->
  reflection side s =
  Ok (minus_scaled (velocity s)
                   (2 * dot (velocity s) (normal side) / dot (normal side) (normal side))
                   (normal side),
      V2K * (-2) * dot (velocity s) (normal side)
      / sqrt (dot (normal side) (normal side))).
Proof.
  intros Hs Hneg.
  assert (Hnn : 0 < dot (normal side) (normal side)).
  { destruct side as [| [| [| [| [| side]]]]]; try lia;
      cbv [normal dot velocity] in Hneg |- *.
    - assert (0 < l * l + ww * ww) by (apply (nlen2_pos l ww (vx s) (vz s)); lra). lra.
    - assert (0 < l * l + ww * ww) by (apply (nlen2_pos l ww (- vx s) (vz s)); lra). lra.
    - assert (0 < l * l + hh * hh) by (apply (nlen2_pos l hh (vy s) (vz s)); lra). lra.
    - assert (0 < l * l + hh * hh) by (apply (nlen2_pos l hh (- vy s) (vz s)); lra). lra. }
  pose proof (sqrt_lt_R0 _ Hnn) as Hsq.
  destruct side as [| [| [| [| [| side]]]]]; try lia;
    cbv [normal dot velocity minus_scaled] in Hnn, Hsq |- *;
    cbv [Guide.reflection Nat.ltb Nat.leb Nat.sub nth
         vdotn_v1 vdotn_v2 vdotn_h1 vdotn_h2 av bv ah bh].
  all: match type of Hnn with
       | 0 < ?e =>
         first [ replace e with (l * l + ww * ww) in * by ring
               | replace e with (l * l + hh * hh) in * by ring ]
       end.
  all: rewrite fdiv_ok by lra; cbn [bind]; rewrite fdiv_ok by lra; cbn [bind].
  all: apply f_equal;
    apply f_equal2; [apply f_equal2; [apply f_equal2 |] |]; field; lra.
Qed.

(** The body of the loop once the surface is chosen. *)
Lemma bounce_step_unfold (s : neutron) (bt : R) (side : nat) :
  select (vdots s) (times s) = Ok (Some (bt, side)) ->
  bounce_step s =
  if (side =? 0)%nat then Ok (Break, s)
  else
    vq <- reflection side s ;;
    R <- reflectivity (snd vq) ;;
    Ok (absorbed_or_not (after_bounce s bt (fst vq) R)).
Proof.
  intros Hsel. unfold Guide.bounce_step. rewrite Hsel. cbn [bind].
  destruct (side =? 0)%nat; [reflexivity |].
  destruct (reflection side s) as [[[[a b] c] q] | f]; cbn [bind fst snd]; [| reflexivity].
  destruct (reflectivity q) as [R | f]; cbn [bind]; [| reflexivity].
  unfold absorbed_or_not, after_bounce. cbn [prob].
  destruct (Rleb (prob s * R) 0); reflexivity.
Qed.

(** The exit plane is chosen: the loop is left with the locals as the
    pass found them. *)
Lemma bounce_step_exit (s : neutron) (bt : R) :
  select (vdots s) (times s) = Ok (Some (bt, 0%nat)) ->
  bounce_step s = Ok (Break, s).
Proof. intros Hsel. now rewrite (bounce_step_unfold s bt 0 Hsel). Qed.

(** A mirror is chosen. *)
Lemma bounce_step_mirror (s : neutron) (bt : R) (side : nat) :
  select (vdots s) (times s) = Ok (Some (bt, side)) ->
  side <> 0%nat ->
  (1 <= side <= 4)%nat /\
  dot (velocity s) (normal side) < 0 /\
  bounce_step s =
  bind (reflectivity (V2K * (-2) * dot (velocity s) (normal side)
                      / sqrt (dot (normal side) (normal side))))
       (fun R =>
          Ok (absorbed_or_not
                (after_bounce s bt
                   (minus_scaled (velocity s)
                      (2 * dot (velocity s) (normal side)
                       / dot (normal side) (normal side))
                      (normal side)) R))).
Proof.
  intros Hsel Hside.
  pose proof (select_earliest_of _ _ _ Hsel) as (Hlt & Hneg & _).
  assert (Hs : (1 <= side <= 4)%nat) by lia.
  rewrite (vdots_dot s side Hs) in Hneg.
  repeat split; try lia; try exact Hneg.
  rewrite (bounce_step_unfold s bt side Hsel).
  apply Nat.eqb_neq in Hside. rewrite Hside.
  rewrite (reflection_ok s side Hs Hneg). reflexivity.
Qed.

(** The two ways a pass can end without a fault. *)
Lemma bounce_step_inv (s : neutron) (c : control) (s' : neutron) :
  bounce_step s = Ok (c, s') ->
  (c = Break /\ s' = s /\
   exists bt, select (vdots s) (times s) = Ok (Some (bt, 0%nat)))
  \/
  (exists bt side R,
      select (vdots s) (times s) = Ok (Some (bt, side)) /\
      (1 <= side <= 4)%nat /\
      dot (velocity s) (normal side) < 0 /\
      reflectivity (V2K * (-2) * dot (velocity s) (normal side)
                    / sqrt (dot (normal side) (normal side))) = Ok R /\
      (c, s') =
      absorbed_or_not
        (after_bounce s bt
           (minus_scaled (velocity s)
              (2 * dot (velocity s) (normal side) / dot (normal side) (normal side))
              (normal side)) R)).
Proof.
  intros Hstep.
  destruct (select (vdots s) (times s)) as [[[bt side] |] | f] eqn:Hsel.
  - destruct (Nat.eq_dec side 0) as [-> | Hside].
    + rewrite (bounce_step_exit s bt Hsel) in Hstep.
      injection Hstep as <- <-. left. eauto.
    + destruct (bounce_step_mirror s bt side Hsel Hside) as (Hs & Hneg & E).
      rewrite E in Hstep. right. exists bt, side.
      destruct (reflectivity _) as [R | f]; cbn [bind] in Hstep; [| discriminate].
      exists R. injection Hstep as Hstep. now repeat split.
  - unfold Guide.bounce_step in Hstep. rewrite Hsel in Hstep. discriminate.
  - unfold Guide.bounce_step in Hstep. rewrite Hsel in Hstep. discriminate.
Qed.

(** A pass faults only on a zero [vz] or on a zero [W]. *)
Lemma bounce_step_total (s : neutron) :
  vz s <> 0 -> W <> 0 -> exists c s', bounce_step s = Ok (c, s').
Proof.
  intros Hvz HW.
  destruct (select_exit_first s Hvz) as (bt & side & Hsel).
  destruct (Nat.eq_dec side 0) as [-> | Hside].
  - exists Break, s. exact (bounce_step_exit s bt Hsel).
  - destruct (bounce_step_mirror s bt side Hsel Hside) as (_ & _ & E).
    rewrite E.
    match goal with |- context [reflectivity ?q] =>
      assert (HR : exists R, reflectivity q = Ok R)
    end.
    { unfold calc_reflectivity. destruct (Rgtb _ Qc); [| eauto].
      rewrite (fdiv_ok _ _ HW). cbn. eauto. }
    destruct HR as (R & ->). cbn [bind].
    destruct (absorbed_or_not _) as [c s']. eauto.
Qed.

(** [side] is never read unassigned: a pass faults only on a quotient
    by zero. *)
Lemma bounce_step_side_assigned (s : neutron) :
  bounce_step s <> Fault UnboundLocal.
Proof.
  destruct (Req_dec_T (vz s) 0) as [Hvz | Hvz].
  - unfold Guide.bounce_step. rewrite (select_reads_exit_time s Hvz). discriminate.
  - destruct (select_exit_first s Hvz) as (bt & side & Hsel).
    destruct (Nat.eq_dec side 0) as [-> | Hside].
    + rewrite (bounce_step_exit s bt Hsel). discriminate.
    + destruct (bounce_step_mirror s bt side Hsel Hside) as (_ & _ & ->).
      unfold calc_reflectivity. destruct (Rgtb _ Qc); [| discriminate].
      unfold fdiv. destruct (Req_dec_T W 0); discriminate.
Qed.

End Step.

(** ** The reflectivity as a factor of the probability *)

Lemma tanh_0 : tanh 0 = 0.
Proof. unfold tanh. rewrite sinh_0. lra. Qed.

Lemma tanh_bounds (u : R) : -1 < tanh u < 1.
Proof.
  unfold tanh, sinh, cosh.
  pose proof (exp_pos u) as Hp. pose proof (exp_pos (- u)) as Hm.
  set (c := (exp u + exp (- u)) / 2). set (a := (exp u - exp (- u)) / 2).
  assert (Hc : 0 < c) by (unfold c; lra).
  assert (Ha : - c < a < c) by (unfold a, c; lra).
  assert (Hi : 0 < / c) by now apply Rinv_0_lt_compat.
  assert (Hci : c * / c = 1) by (apply Rinv_r; lra).
  unfold Rdiv. split; nra.
Qed.

(** For a baseline in [0, 1] and a slope that is not negative the
    reflectivity is at most 1. *)
Lemma calc_reflectivity_le_1 (Q R0 Qc alpha m W R : R) :
  0 <= R0 <= 1 -> 0 <= alpha ->
  calc_reflectivity Q R0 Qc alpha m W = Ok R -> R <= 1.
Proof.
  intros HR0 Ha. unfold calc_reflectivity.
  destruct (Rgtb Q Qc) eqn:Hgt.
  - apply Rgtb_true in Hgt.
    destruct ((Q - m * Qc) /? W) as [u | f]; cbn [bind]; [| discriminate].
    intros E; injection E as <-.
    pose proof (tanh_bounds u) as Ht.
    assert (Hp : (1 - tanh u) * (1 - alpha * (Q - Qc)) / 2 <= 1).
    { assert (Hb : 1 - alpha * (Q - Qc) <= 1) by nra.
      generalize dependent (1 - alpha * (Q - Qc)). intros b Hb.
      generalize dependent (tanh u). intros th Hth.
      destruct (Rle_lt_dec 0 b); nra. }
    generalize dependent ((1 - tanh u) * (1 - alpha * (Q - Qc)) / 2). intros p Hp.
    destruct (Rle_lt_dec 0 p); nra.
  - intros E; injection E as <-. lra.
Qed.

(** ** Vectors *)

Lemma dot_comm (a b : vec) : dot a b = dot b a.
Proof. destruct a as [[a1 a2] a3], b as [[b1 b2] b3]. cbn. ring. Qed.

Lemma dot_minus_scaled (v n u : vec) (c : R) :
  dot (minus_scaled v c n) u = dot v u - c * dot n u.
Proof.
  destruct v as [[v1 v2] v3], n as [[n1 n2] n3], u as [[u1 u2] u3]. cbn. ring.
Qed.

Lemma dot_minus_scaled_self (v n : vec) (c : R) :
  dot (minus_scaled v c n) (minus_scaled v c n) =
  dot v v - 2 * c * dot v n + c * c * dot n n.
Proof. destruct v as [[v1 v2] v3], n as [[n1 n2] n3]. cbn. ring. Qed.

Lemma velocity_after_bounce (s : neutron) (bt R : R) (v' : vec) :
  velocity (after_bounce s bt v' R) = v'.
Proof. destruct v' as [[a b] c]. reflexivity. Qed.

Lemma prob_after_bounce (s : neutron) (bt R : R) (v' : vec) :
  prob (after_bounce s bt v' R) = prob s * R.
Proof. destruct v' as [[a b] c]. reflexivity. Qed.

Lemma absorbed_or_not_inv (c : control) (s' a : neutron) :
  (c, s') = absorbed_or_not a ->
  s' = a /\ (c = Continue -> 0 < prob a) /\ (c = Break -> prob a <= 0).
Proof.
  unfold absorbed_or_not. destruct (Rleb (prob a) 0) eqn:E; intros H; injection H as -> ->.
  - apply Rleb_true in E. repeat split; [discriminate | auto].
  - apply Rleb_false in E. repeat split; [auto | discriminate].
Qed.

(** ** Properties of one pass *)

Section StepProperties.

Variable V2K : R.
Variables ww hh hw1 hh1 l : R.
Variables R0 Qc alpha m W : R.

Local Abbreviation vdots := (vdots ww hh l).
Local Abbreviation times := (times ww hh hw1 hh1 l).
Local Abbreviation normal := (normal ww hh l).
Local Abbreviation inside := (inside ww hh hw1 hh1 l).
Local Abbreviation reflection := (reflection V2K ww hh l).
Local Abbreviation bounce_step := (bounce_step V2K ww hh hw1 hh1 l R0 Qc alpha m W).
Local Abbreviation reflectivity q := (calc_reflectivity q R0 Qc alpha m W).

(** A mirror the particle moves towards has a normal that is not
    zero. *)
Lemma normal_pos (s : neutron) (side : nat) :
  dot (velocity s) (normal side) < 0 -> 0 < dot (normal side) (normal side).
Proof.
  intros Hneg.
  destruct side as [| [| [| [| [| side]]]]];
    cbv [Guide.normal dot velocity] in Hneg |- *; try lra.
  - assert (0 < l * l + ww * ww) by (apply (nlen2_pos l ww (vx s) (vz s)); lra). lra.
  - assert (0 < l * l + ww * ww) by (apply (nlen2_pos l ww (- vx s) (vz s)); lra). lra.
  - assert (0 < l * l + hh * hh) by (apply (nlen2_pos l hh (vy s) (vz s)); lra). lra.
  - assert (0 < l * l + hh * hh) by (apply (nlen2_pos l hh (- vy s) (vz s)); lra). lra.
Qed.


(** C4. At every reflection the velocity becomes
    [v - 2 * (v.n / |n|^2) * n] for the normal [n] of the mirror
    chosen: its component along [n] is negated and its product with
    every vector orthogonal to [n] is unchanged; and the momentum
    transfer handed to the reflectivity model is
    [2 * V2K * |v.n| / |n|]. *)
Theorem reflection_is_specular (s : neutron) (best_time : R) (side : nat) :
  select (vdots s) (times s) = Ok (Some (best_time, side)) ->
  side <> 0%nat ->
  exists (v' : vec) (q : R),
    reflection side s = Ok (v', q) /\
    v' = minus_scaled (velocity s)
           (2 * (dot (velocity s) (normal side) / dot (normal side) (normal side)))
           (normal side) /\
    dot v' (normal side) = - dot (velocity s) (normal side) /\
    (forall u : vec, dot u (normal side) = 0 -> dot v' u = dot (velocity s) u) /\
    q = 2 * V2K * Rabs (dot (velocity s) (normal side))
        / sqrt (dot (normal side) (normal side)) /\
    bounce_step s =
    bind (reflectivity q)
         (fun R => Ok (absorbed_or_not (after_bounce s best_time v' R))).
Proof.
  intros Hsel Hside.
  destruct (bounce_step_mirror V2K ww hh hw1 hh1 l R0 Qc alpha m W s best_time side Hsel Hside)
    as (Hs & Hneg & Hstep).
  pose proof (normal_pos s side Hneg) as Hnn.
  pose proof (sqrt_lt_R0 _ Hnn) as Hsq.
  set (n := normal side) in *. set (v := velocity s) in *.
  assert (Ec : 2 * dot v n / dot n n = 2 * (dot v n / dot n n)) by (field; lra).
  assert (Eq : V2K * -2 * dot v n / sqrt (dot n n)
               = 2 * V2K * Rabs (dot v n) / sqrt (dot n n)).
  { rewrite (Rabs_left _ Hneg). field. lra. }
  exists (minus_scaled v (2 * (dot v n / dot n n)) n),
         (2 * V2K * Rabs (dot v n) / sqrt (dot n n)).
  repeat split.
  - rewrite <- Ec, <- Eq. exact (reflection_ok V2K ww hh l s side Hs Hneg).
  - rewrite dot_minus_scaled. field. lra.
  - intros u Hu. rewrite dot_minus_scaled, (dot_comm n u), Hu. ring.
  - rewrite <- Ec, <- Eq. exact Hstep.
Qed.

(** C10. Every pass through the loop body, and so every reflection,
    leaves [vx^2 + vy^2 + vz^2] as it found it. *)
Theorem reflection_preserves_speed (s : neutron) (c : control) (s' : neutron) :
  bounce_step s = Ok (c, s') ->
  vx s' * vx s' + vy s' * vy s' + vz s' * vz s'
  = vx s * vx s + vy s * vy s + vz s * vz s.
Proof.
  intros Hstep.
  change (speed2 s' = speed2 s).
  destruct (bounce_step_inv V2K ww hh hw1 hh1 l R0 Qc alpha m W s c s' Hstep)
    as [(_ & -> & _) | (bt & side & R & _ & _ & Hneg & _ & Hout)]; [reflexivity |].
  apply absorbed_or_not_inv in Hout. destruct Hout as (-> & _).
  pose proof (normal_pos s side Hneg) as Hnn.
  unfold speed2. rewrite velocity_after_bounce, dot_minus_scaled_self.
  field. lra.
Qed.

(** A pass does not raise the probability when the reflectivity is at
    most 1; when it ends by running to the end of the body, the
    probability is positive. *)
Lemma bounce_step_prob (s : neutron) (c : control) (s' : neutron) :
  0 <= R0 <= 1 -> 0 <= alpha -> 0 <= prob s ->
  bounce_step s = Ok (c, s') ->
  prob s' <= prob s /\ (c = Continue -> 0 < prob s').
Proof.
  intros HR0 Ha Hp Hstep.
  destruct (bounce_step_inv V2K ww hh hw1 hh1 l R0 Qc alpha m W s c s' Hstep)
    as [(-> & -> & _) | (bt & side & R & _ & _ & _ & HR & Hout)].
  - split; [lra | discriminate].
  - apply absorbed_or_not_inv in Hout. destruct Hout as (-> & Hc & _).
    apply (calc_reflectivity_le_1 _ _ _ _ _ _ _ HR0 Ha) in HR.
    rewrite prob_after_bounce in *. split; [nra | exact Hc].
Qed.

Lemma bounce_step_continue_pos (s s' : neutron) :
  bounce_step s = Ok (Continue, s') -> 0 < prob s'.
Proof.
  intros Hstep.
  destruct (bounce_step_inv V2K ww hh hw1 hh1 l R0 Qc alpha m W s _ s' Hstep)
    as [(E & _) | (bt & side & R & _ & _ & _ & _ & Hout)]; [discriminate |].
  apply absorbed_or_not_inv in Hout. destruct Hout as (-> & Hc & _). now apply Hc.
Qed.

End StepProperties.

(** ** The loop and the whole transport *)

Lemma max_bounces_S : max_bounces = S (Z.to_nat 99999).
Proof. unfold max_bounces. lia. Qed.

Lemma max_bounces_value : Z.of_nat max_bounces = 100000%Z.
Proof. unfold max_bounces. lia. Qed.

Section Transport.

Variable V2K : R.
Variables ww hh hw1 hh1 l : R.
Variables R0 Qc alpha m W : R.

Local Abbreviation vdots := (vdots ww hh l).
Local Abbreviation times := (times ww hh hw1 hh1 l).
Local Abbreviation bounce_step := (bounce_step V2K ww hh hw1 hh1 l R0 Qc alpha m W).
Local Abbreviation bounce_loop := (bounce_loop V2K ww hh hw1 hh1 l R0 Qc alpha m W).
Local Abbreviation continues := (continues V2K ww hh hw1 hh1 l R0 Qc alpha m W).
Local Abbreviation misses_opening := (misses_opening hw1 hh1).
Local Abbreviation run_propagate := (run_propagate V2K ww hh hw1 hh1 l R0 Qc alpha m W).
Local Abbreviation propagate := (propagate V2K ww hh hw1 hh1 l R0 Qc alpha m W).
Local Abbreviation bounces := (bounces V2K ww hh hw1 hh1 l R0 Qc alpha m W).

Lemma bounce_loop_count (n : nat) (s : neutron) :
  (fst (bounce_loop n s) <= n)%nat.
Proof.
  revert s. induction n as [| n IH]; intros s; cbn [Guide.bounce_loop fst]; [lia |].
  destruct (bounce_step s) as [[[|] s'] | f]; cbn [fst]; try lia.
  specialize (IH s'). destruct (bounce_loop n s') as [k r]. cbn [fst] in *. lia.
Qed.

(** [k] passes that run to the end of the body use up [k] of the
    iterations of the loop. *)
Lemma bounce_loop_continues (k n : nat) (s s' : neutron) :
  continues k s s' ->
  bounce_loop (k + n) s
  = ((k + fst (bounce_loop n s'))%nat, snd (bounce_loop n s')).
Proof.
  induction 1 as [s | k s s1 s2 Hstep _ IH].
  - cbn [Nat.add]. now destruct (bounce_loop n s).
  - cbn [Nat.add Guide.bounce_loop]. rewrite Hstep, IH. reflexivity.
Qed.

(** A pass that chooses the exit plane ends the loop with the locals
    it started from: they are not moved to the exit plane. *)
Lemma bounce_loop_exit (n : nat) (s : neutron) (bt : R) :
  select (vdots s) (times s) = Ok (Some (bt, 0%nat)) ->
  bounce_loop (S n) s = (1%nat, Ok s).
Proof.
  intros Hsel. cbn [Guide.bounce_loop].
  now rewrite (bounce_step_exit V2K ww hh hw1 hh1 l R0 Qc alpha m W s bt Hsel).
Qed.

Lemma bounce_loop_exhausted (k : nat) (s s' : neutron) :
  continues k s s' -> bounce_loop k s = (k, Ok s').
Proof.
  intros Hk. rewrite <- (Nat.add_0_r k) at 1.
  rewrite (bounce_loop_continues k 0 s s' Hk). cbn [Guide.bounce_loop fst snd].
  now rewrite Nat.add_0_r.
Qed.

Lemma continues_prob_pos (k : nat) (s s' : neutron) :
  continues k s s' -> 0 < prob s -> 0 < prob s'.
Proof.
  induction 1 as [s | k s s1 s2 Hstep _ IH]; intros Hp; [exact Hp |].
  apply IH. exact (bounce_step_continue_pos _ _ _ _ _ _ _ _ _ _ _ _ _ Hstep).
Qed.

(** After at least one pass that ran to its end the probability is
    positive. *)
Lemma continues_S_prob_pos (k : nat) (s s' : neutron) :
  continues (S k) s s' -> 0 < prob s'.
Proof.
  intros Hk. inversion Hk as [| k' s0 s1 s2 Hstep Hrest]; subst.
  apply (continues_prob_pos _ _ _ Hrest).
  exact (bounce_step_continue_pos _ _ _ _ _ _ _ _ _ _ _ _ _ Hstep).
Qed.

Lemma bounce_loop_prob (n : nat) (s s' : neutron) :
  0 <= R0 <= 1 -> 0 <= alpha -> 0 <= prob s ->
  snd (bounce_loop n s) = Ok s' -> prob s' <= prob s.
Proof.
  intros HR0 Ha. revert s.
  induction n as [| n IH]; intros s Hp; cbn [Guide.bounce_loop snd].
  - intros E; injection E as <-. lra.
  - destruct (bounce_step s) as [[c s1] | f] eqn:Hstep; [| discriminate].
    destruct (bounce_step_prob _ _ _ _ _ _ _ _ _ _ _ _ _ _ HR0 Ha Hp Hstep) as (Hle & Hc).
    destruct c; cbn [snd].
    + intros E; injection E as <-. exact Hle.
    + specialize (IH s1). destruct (bounce_loop n s1) as [k r]. cbn [snd] in *.
      intros E. specialize (Hc eq_refl). apply IH in E; lra.
Qed.

Lemma misses_opening_true (s : neutron) :
  ~ (- hw1 < x s < hw1 /\ - hh1 < y s < hh1) -> misses_opening s = true.
Proof.
  intros H. unfold Guide.misses_opening.
  destruct (Rleb (x s) (- hw1)) eqn:E1; [reflexivity |].
  destruct (Rgeb (x s) hw1) eqn:E2; [reflexivity |].
  destruct (Rleb (y s) (- hh1)) eqn:E3; [reflexivity |].
  destruct (Rgeb (y s) hh1) eqn:E4; [reflexivity |].
  apply Rleb_false in E1, E3. apply Rgeb_false in E2, E4.
  elim H. lra.
Qed.

Lemma misses_opening_false (s : neutron) :
  - hw1 < x s < hw1 -> - hh1 < y s < hh1 -> misses_opening s = false.
Proof.
  intros Hx Hy. unfold Guide.misses_opening.
  rewrite (proj2 (Rleb_false (x s) (- hw1))) by lra.
  rewrite (proj2 (Rgeb_false (x s) hw1)) by lra.
  rewrite (proj2 (Rleb_false (y s) (- hh1))) by lra.
  rewrite (proj2 (Rgeb_false (y s) hh1)) by lra.
  reflexivity.
Qed.

(** [propagate] past the check of the opening. *)
Lemma run_propagate_enters (n : neutron) :
  vz n <> 0 ->
  misses_opening (to_entrance n (- z n / vz n)) = false ->
  run_propagate n = bounce_loop max_bounces (to_entrance n (- z n / vz n)).
Proof.
  intros Hvz Hin. unfold Guide.run_propagate.
  rewrite (fdiv_ok _ _ Hvz). cbv zeta. now rewrite Hin.
Qed.

(** C5 (as amended). For a baseline reflectivity in [0, 1], a slope
    [alpha] that is not negative and a particle whose probability is
    not negative, the probability after transport is at most its
    value before, and no pass through the bounce loop raises it. *)
Theorem probability_never_increases
        (n n' : neutron) (s : neutron) (c : control) (s' : neutron) :
  0 <= R0 <= 1 -> 0 <= alpha ->
  (0 <= prob n -> propagate n = Ok n' -> prob n' <= prob n) /\
  (0 <= prob s -> bounce_step s = Ok (c, s') -> prob s' <= prob s).
Proof.
  intros HR0 Ha. split.
  - intros Hp. unfold Guide.propagate, Guide.run_propagate.
    destruct (- z n /? vz n) as [dt | f]; cbn [snd]; [| discriminate].
    cbv zeta. destruct (misses_opening (to_entrance n dt)); cbn [snd].
    + intros E; injection E as <-. cbn. exact Hp.
    + intros E. apply (bounce_loop_prob _ _ _ HR0 Ha) in E; cbn in *; lra.
  - intros Hp Hstep.
    exact (proj1 (bounce_step_prob _ _ _ _ _ _ _ _ _ _ _ _ _ _ HR0 Ha Hp Hstep)).
Qed.

(** C7. A particle whose straight-line projection onto the entrance
    plane [z = 0] lies outside the open rectangle
    [(-hw1, hw1) x (-hh1, hh1)] has its probability set to 0 and
    nothing else changed: no pass through the bounce loop is made and
    the stored position and time are those it came with. *)
Theorem miss_of_opening_absorbs (n : neutron) :
  vz n <> 0 ->
  ~ (- hw1 < x n + vx n * (- z n / vz n) < hw1 /\
     - hh1 < y n + vy n * (- z n / vz n) < hh1) ->
  propagate n = Ok (set_prob n 0) /\
  bounces n = 0%nat /\
  prob (set_prob n 0) = 0 /\
  (x (set_prob n 0), y (set_prob n 0), z (set_prob n 0), t (set_prob n 0))
  = (x n, y n, z n, t n).
Proof.
  intros Hvz Hout.
  assert (E : run_propagate n = (0%nat, Ok (set_prob n 0))).
  { unfold Guide.run_propagate. rewrite (fdiv_ok _ _ Hvz). cbv zeta.
    now rewrite (misses_opening_true (to_entrance n (- z n / vz n)) Hout). }
  unfold Guide.propagate, Guide.bounces. rewrite E. now repeat split.
Qed.

(** C8. The bounce loop makes at most 100000 passes, whatever the
    particle.  When all 100000 passes run to the end of the body,
    the locals of the last pass (position, velocity, time and a
    probability that is still positive) are what [propagate] writes
    back; the row has no field that would tell such a particle from
    one that left through the exit. *)
Theorem bounce_cap (n : neutron) (s' : neutron) :
  (Z.of_nat (bounces n) <= 100000)%Z /\
  (vz n <> 0 ->
   misses_opening (to_entrance n (- z n / vz n)) = false ->
   continues max_bounces (to_entrance n (- z n / vz n)) s' ->
   propagate n = Ok s' /\ bounces n = max_bounces /\ 0 < prob s').
Proof.
  split.
  - rewrite <- max_bounces_value. apply inj_le.
    unfold Guide.bounces, Guide.run_propagate.
    destruct (- z n /? vz n) as [dt | f]; cbn [fst]; [| lia].
    cbv zeta. destruct (misses_opening (to_entrance n dt)); cbn [fst]; [lia |].
    apply bounce_loop_count.
  - intros Hvz Hin Hk.
    unfold Guide.propagate, Guide.bounces.
    rewrite (run_propagate_enters n Hvz Hin).
    rewrite (bounce_loop_exhausted _ _ _ Hk). cbn [fst snd].
    repeat split.
    rewrite max_bounces_S in Hk. exact (continues_S_prob_pos _ _ _ Hk).
Qed.

(** C6 (as amended). No quotient is guarded.  With [vz = 0] the
    projection onto the entrance and the exit time of a pass are
    quotients by zero that are read, and the run ends there.  A mirror
    whose directional term is exactly 0 has its time computed as a
    quotient by zero all the same, but that time is never read: the
    pass comes to its end (for [vz <> 0] and [W <> 0]) and the mirror
    is not the surface chosen. *)
Theorem zero_denominators (n s s2 : neutron) (j : nat) :
  (vz n = 0 -> propagate n = Fault ZeroDivision) /\
  (vz s = 0 -> bounce_step s = Fault ZeroDivision) /\
  ((1 <= j <= 4)%nat -> nth j (vdots s2) 0 = 0 ->
   nth j (times s2) (Fault UnboundLocal) = Fault ZeroDivision /\
   (vz s2 <> 0 -> W <> 0 ->
    exists c s', bounce_step s2 = Ok (c, s') /\
      forall bt side, select (vdots s2) (times s2) = Ok (Some (bt, side)) ->
                      side <> j)).
Proof.
  split; [| split].
  - intros Hvz. unfold Guide.propagate, Guide.run_propagate.
    rewrite Hvz, fdiv_fault. reflexivity.
  - intros Hvz. unfold Guide.bounce_step.
    now rewrite (select_reads_exit_time ww hh hw1 hh1 l s Hvz).
  - intros Hj Hzero. split.
    + destruct j as [| [| [| [| [| j]]]]]; try lia;
        cbv [Guide.vdots Guide.times nth] in Hzero |- *;
        rewrite Hzero; apply fdiv_fault.
    + intros Hvz HW.
      destruct (bounce_step_total V2K ww hh hw1 hh1 l R0 Qc alpha m W s2 Hvz HW)
        as (c & s' & Hstep).
      exists c, s'. split; [exact Hstep |].
      intros bt side Hsel ->.
      apply select_earliest_of in Hsel. destruct Hsel as (_ & Hneg & _). lra.
Qed.

End Transport.

(** ** Runs in the straight guide *)

Ltac kernel_locals :=
  cbv [vdots times nth t1 vdotn_v1 vdotn_v2 vdotn_h1 vdotn_h2
       cv1 cv2 ch1 ch2 av bv ah bh x y z vx vy vz t prob spin].

Ltac kernel_locals_in H :=
  cbv [vdots times nth t1 vdotn_v1 vdotn_v2 vdotn_h1 vdotn_h2
       cv1 cv2 ch1 ch2 av bv ah bh x y z vx vy vz t prob spin] in H.

(** The directional terms of the mirrors of the worked examples are 1
    or -1. *)
Ltac unit_denominators :=
  repeat match goal with
         | |- context [?a / ?b] =>
           lazymatch b with
           | -1 => fail
           | 1 => fail
           | _ => first [ replace b with (-1) by ring | replace b with 1 by ring ]
           end
         end.

(** Settles [earliest vd tm 5 (Some (bt, i))] for explicit candidates. *)
Ltac settle_earliest :=
  unfold earliest; split; [lia |];
  split; [kernel_locals; lra |];
  split; [kernel_locals; rewrite fdiv_ok by lra; f_equal; field; lra |];
  let j := fresh "j" in
  let Hj := fresh "Hj" in
  let Hneg := fresh "Hneg" in
  intros j Hj Hneg;
  destruct j as [| [| [| [| [| j]]]]]; try lia;
  kernel_locals_in Hneg; try lra;
  kernel_locals; eexists;
  (split; [apply fdiv_ok; lra |]);
  unit_denominators;
  (split; [try lra | intros ?; try lia; try lra]).

(** The mirror normals of the straight guide of length 1 have length 1,
    and the momentum transfer of a particle that crosses it with
    [vx = 1] or [vx = -1] is [2 * V2K]. *)
Ltac unit_normal V2K :=
  match goal with
  | |- context [sqrt ?e] =>
    replace (sqrt e) with 1 by (symmetry; replace e with 1 by ring; exact sqrt_1)
  end;
  match goal with
  | |- bind (calc_reflectivity ?q _ _ _ _ _) _ = _ =>
    replace q with (2 * V2K) by field
  end.

Section StraightGuide.

Variable V2K : R.
Variables R0 Qc alpha m W : R.

Local Abbreviation vdots := (vdots 0 0 1).
Local Abbreviation times := (times 0 0 1 1 1).
Local Abbreviation bounce_step := (bounce_step V2K 0 0 1 1 1 R0 Qc alpha m W).
Local Abbreviation reflectivity q := (calc_reflectivity q R0 Qc alpha m W).

(** Along the axis direction no mirror is a candidate. *)
Lemma straight_along (x0 y0 z0 v t0 p : R) (sp : list R) :
  0 < v ->
  bounce_step (Neutron x0 y0 z0 0 0 v sp t0 p)
  = Ok (Break, Neutron x0 y0 z0 0 0 v sp t0 p).
Proof.
  intros Hv.
  apply (bounce_step_exit _ _ _ _ _ _ _ _ _ _ _ _ ((1 - z0) / v)).
  apply select_unique. settle_earliest.
Qed.

Lemma straight_right_select (x0 y0 z0 v t0 p : R) (sp : list R) :
  0 < v -> 1 - x0 < (1 - z0) / v ->
  select (vdots (Neutron x0 y0 z0 1 0 v sp t0 p))
         (times (Neutron x0 y0 z0 1 0 v sp t0 p))
  = Ok (Some (1 - x0, 2%nat)).
Proof. intros Hv Hexit. apply select_unique. settle_earliest. Qed.

(** Heading right, the right mirror is reached before the exit. *)
Lemma straight_right (x0 y0 z0 v t0 p : R) (sp : list R) :
  0 < v -> 1 - x0 < (1 - z0) / v ->
  bounce_step (Neutron x0 y0 z0 1 0 v sp t0 p)
  = bind (reflectivity (2 * V2K))
         (fun R => Ok (absorbed_or_not
                         (Neutron 1 y0 (z0 + v * (1 - x0)) (-1) 0 v sp
                                  (t0 + (1 - x0)) (p * R)))).
Proof.
  intros Hv Hexit.
  set (s := Neutron x0 y0 z0 1 0 v sp t0 p).
  pose proof (straight_right_select x0 y0 z0 v t0 p sp Hv Hexit) as Hsel.
  fold s in Hsel.
  destruct (bounce_step_mirror V2K 0 0 1 1 1 R0 Qc alpha m W s _ _ Hsel ltac:(lia))
    as (_ & _ & ->).
  subst s. cbv [normal dot velocity minus_scaled after_bounce x y z vx vy vz t prob spin].
  unit_normal V2K.
  destruct (reflectivity (2 * V2K)) as [R | f]; cbn [bind]; [| reflexivity].
  do 2 f_equal. f_equal; field; lra.
Qed.

(** Heading left, the left mirror is reached before the exit. *)
Lemma straight_left (x0 y0 z0 v t0 p : R) (sp : list R) :
  0 < v -> 1 + x0 < (1 - z0) / v ->
  bounce_step (Neutron x0 y0 z0 (-1) 0 v sp t0 p)
  = bind (reflectivity (2 * V2K))
         (fun R => Ok (absorbed_or_not
                         (Neutron (-1) y0 (z0 + v * (1 + x0)) 1 0 v sp
                                  (t0 + (1 + x0)) (p * R)))).
Proof.
  intros Hv Hexit.
  set (s := Neutron x0 y0 z0 (-1) 0 v sp t0 p).
  assert (Hsel : select (vdots s) (times s) = Ok (Some (1 + x0, 1%nat))).
  { apply select_unique. subst s. settle_earliest. }
  destruct (bounce_step_mirror V2K 0 0 1 1 1 R0 Qc alpha m W s _ _ Hsel ltac:(lia))
    as (_ & _ & ->).
  subst s. cbv [normal dot velocity minus_scaled after_bounce x y z vx vy vz t prob spin].
  unit_normal V2K.
  destruct (reflectivity (2 * V2K)) as [R | f]; cbn [bind]; [| reflexivity].
  do 2 f_equal. f_equal; field; lra.
Qed.

(** Heading left, the exit is reached no later than the left mirror. *)
Lemma straight_left_exit (x0 y0 z0 v t0 p : R) (sp : list R) :
  0 < v -> (1 - z0) / v <= 1 + x0 ->
  bounce_step (Neutron x0 y0 z0 (-1) 0 v sp t0 p)
  = Ok (Break, Neutron x0 y0 z0 (-1) 0 v sp t0 p).
Proof.
  intros Hv Hexit.
  apply (bounce_step_exit _ _ _ _ _ _ _ _ _ _ _ _ ((1 - z0) / v)).
  apply select_unique. settle_earliest.
Qed.

Local Abbreviation run_propagate := (run_propagate V2K 0 0 1 1 1 R0 Qc alpha m W).

(** A particle on the axis leaves through the exit in the first pass;
    what is written back are the locals at the entrance. *)
Lemma straight_on_axis (z0 v t0 p : R) (sp : list R) :
  0 < v ->
  run_propagate (Neutron 0 0 z0 0 0 v sp t0 p)
  = (1%nat, Ok (Neutron 0 0 0 0 0 v sp (t0 + - z0 / v) p)).
Proof.
  intros Hv.
  rewrite run_propagate_enters; cbn [x y z vx vy vz t prob spin];
    [| lra | apply misses_opening_false; cbn; lra].
  replace (to_entrance _ _) with (Neutron 0 0 0 0 0 v sp (t0 + - z0 / v) p)
    by (unfold to_entrance; cbn; f_equal; ring).
  rewrite max_bounces_S. cbn [bounce_loop].
  now rewrite (straight_along _ _ _ _ _ _ _ Hv).
Qed.

(** [oblique] is reflected once, off the right mirror, and then leaves
    through the exit. *)
Lemma oblique_step (R : R) :
  reflectivity (2 * V2K) = Ok R -> 0 < R ->
  bounce_step oblique = Ok (Continue, oblique_reflected R).
Proof.
  intros HR Hpos. unfold oblique.
  rewrite straight_right by lra. rewrite HR. cbn [bind].
  replace (Neutron 1 0 (0 + 1 / 2 * (1 - 0)) (-1) 0 (1 / 2) [] (0 + (1 - 0)) (1 * R))
    with (oblique_reflected R) by (unfold oblique_reflected; f_equal; lra).
  unfold absorbed_or_not, oblique_reflected. cbn [prob].
  now rewrite (proj2 (Rleb_false (1 * R) 0)) by lra.
Qed.

Lemma oblique_run (R : R) :
  reflectivity (2 * V2K) = Ok R -> 0 < R ->
  run_propagate oblique = (2%nat, Ok (oblique_reflected R)).
Proof.
  intros HR Hpos.
  rewrite run_propagate_enters; cbn [oblique x y z vx vy vz t prob spin];
    [| lra | apply misses_opening_false; cbn; lra].
  replace (to_entrance _ _) with oblique
    by (unfold to_entrance, oblique; cbn; f_equal; lra).
  rewrite max_bounces_S.
  replace (Z.to_nat 99999) with (S (Z.to_nat 99998)) by lia.
  cbn [bounce_loop]. rewrite (oblique_step R HR Hpos).
  unfold oblique_reflected. now rewrite straight_left_exit by lra.
Qed.

End StraightGuide.

(** ** The particle that reaches the cap *)

Lemma zigzag_reflectivity :
  calc_reflectivity (2 * V2K_value) 1 1 (607/100) 2 (3/1000) = Ok 1.
Proof.
  apply calc_reflectivity_below. unfold V2K_value. lra.
Qed.

Lemma zigzag_step (k : nat) :
  (k < max_bounces)%nat ->
  bounce_step V2K_value 0 0 1 1 1 1 1 (607/100) 2 (3/1000) (zigzag k)
  = Ok (Continue, zigzag (S k)).
Proof.
  intros Hk.
  assert (HkZ : (Z.of_nat k < 100000)%Z) by (unfold max_bounces in Hk; lia).
  assert (Hend : forall a : neutron,
             prob a = 1 * 1 -> absorbed_or_not a = (Continue, a)).
  { intros a Ha. unfold absorbed_or_not.
    now rewrite (proj2 (Rleb_false (prob a) 0)) by lra. }
  destruct k as [| j].
  - cbn [zigzag]. rewrite straight_right by lra.
    rewrite zigzag_reflectivity. cbn [bind]. rewrite Hend by reflexivity.
    do 2 f_equal. cbn [Nat.even INR]. f_equal; lra.
  - assert (Hj : 0 <= INR j <= 99998).
    { rewrite INR_IZR_INZ. split; apply IZR_le; lia. }
    cbn [zigzag]. rewrite S_INR.
    destruct (Nat.even j) eqn:Hev.
    + rewrite straight_left by lra.
      rewrite zigzag_reflectivity. cbn [bind]. rewrite Hend by reflexivity.
      rewrite Nat.even_succ, <- Nat.negb_even, Hev. cbn [negb].
      do 2 f_equal. f_equal; lra.
    + rewrite straight_right by lra.
      rewrite zigzag_reflectivity. cbn [bind]. rewrite Hend by reflexivity.
      rewrite Nat.even_succ, <- Nat.negb_even, Hev. cbn [negb].
      do 2 f_equal. f_equal; lra.
Qed.

Lemma zigzag_continues (k j : nat) :
  (j + k <= max_bounces)%nat ->
  continues V2K_value 0 0 1 1 1 1 1 (607/100) 2 (3/1000) k (zigzag j) (zigzag (j + k)).
Proof.
  revert j. induction k as [| k IH]; intros j Hjk.
  - rewrite Nat.add_0_r. constructor.
  - apply (continues_S _ _ _ _ _ _ _ _ _ _ _ _ _ (zigzag (S j))).
    + apply zigzag_step. lia.
    + replace (j + S k)%nat with (S j + k)%nat by lia. apply IH. lia.
Qed.

(** ** The worked examples *)

(** C1. The particle on the axis of the straight guide, with the
    documented mirror parameters: the exit plane is chosen in the first
    pass, and the row comes back as it went in.  Its [z] is 0, not the
    guide length 1, and its time is 0, not [1 / vz = 1]: the particle is
    not advanced to the exit plane. *)
Theorem exit_leaves_particle_behind :
  run_propagate V2K_value 0 0 1 1 1 (99/100) (219/10000) (607/100) 2 (3/1000) on_axis
  = (1%nat, Ok on_axis) /\
  z on_axis = 0 /\ t on_axis = 0 /\
  1 / vz on_axis = 1.
Proof.
  split; [| cbn; lra].
  unfold on_axis. rewrite straight_on_axis by lra.
  do 2 f_equal. f_equal. lra.
Qed.

(** C5 fails for a negative slope: with [alpha = -1000] the reflectivity
    of the one reflection of [oblique] is 1.28106495. *)
Lemma probability_can_increase :
  exists r : neutron,
    propagate V2K_value 0 0 1 1 1 (99/100) V2K_value (-1000) 2 (3/1000) oblique = Ok r /\
    prob oblique = 1 /\
    prob r = 128106495 / 100000000.
Proof.
  assert (HR : calc_reflectivity (2 * V2K_value) (99/100) V2K_value (-1000) 2 (3/1000)
               = Ok (128106495 / 100000000)).
  { rewrite calc_reflectivity_above_value by (unfold V2K_value; lra).
    replace ((2 * V2K_value - 2 * V2K_value) / (3 / 1000)) with 0 by (field; lra).
    rewrite tanh_0. f_equal. unfold V2K_value. lra. }
  exists (oblique_reflected (128106495 / 100000000)).
  unfold propagate. rewrite (oblique_run _ _ _ _ _ _ _ HR) by lra.
  cbn. repeat split; lra.
Qed.

(** C6 fails: a particle without velocity along the guide makes
    [propagate] read a quotient by zero, and for the particle on the
    axis the time of the left mirror is a quotient by zero. *)
Lemma quotients_by_zero_are_computed :
  propagate V2K_value 0 0 1 1 1 (99/100) (219/10000) (607/100) 2 (3/1000) stalled
  = Fault ZeroDivision /\
  nth 1 (times 0 0 1 1 1 on_axis) (Fault UnboundLocal) = Fault ZeroDivision.
Proof.
  split.
  - unfold propagate, run_propagate, stalled. cbn [z vz].
    now rewrite fdiv_fault.
  - kernel_locals. unfold on_axis.
    replace (0 * 1 + 1 * 0) with 0 by ring. apply fdiv_fault.
Qed.

(** ** The theorems at concrete inputs *)

Lemma oblique_reflectivity :
  calc_reflectivity (2 * V2K_value) (99/100) 1 (607/100) 2 (3/1000) = Ok (99/100).
Proof.
  apply calc_reflectivity_below. unfold V2K_value. lra.
Qed.


Lemma reflection_is_specular_witness :
  exists (v' : vec) (q : R),
    reflection V2K_value 0 0 1 2 oblique = Ok (v', q) /\
    dot v' (normal 0 0 1 2) = - dot (velocity oblique) (normal 0 0 1 2).
Proof.
  destruct (reflection_is_specular V2K_value 0 0 1 1 1 (99/100) 1 (607/100) 2 (3/1000)
                                   oblique (1 - 0) 2)
    as (v' & q & H1 & _ & H3 & _).
  - apply straight_right_select; lra.
  - discriminate.
  - exists v', q. split; assumption.
Defined.

Lemma reflection_preserves_speed_witness :
  vx (oblique_reflected (99/100)) * vx (oblique_reflected (99/100))
  + vy (oblique_reflected (99/100)) * vy (oblique_reflected (99/100))
  + vz (oblique_reflected (99/100)) * vz (oblique_reflected (99/100))
  = vx oblique * vx oblique + vy oblique * vy oblique + vz oblique * vz oblique.
Proof.
  apply (reflection_preserves_speed V2K_value 0 0 1 1 1 (99/100) 1 (607/100) 2 (3/1000)
                                    oblique Continue (oblique_reflected (99/100))).
  apply oblique_step; [exact oblique_reflectivity | lra].
Defined.

Lemma probability_never_increases_witness :
  prob (oblique_reflected (99/100)) <= prob oblique.
Proof.
  destruct (probability_never_increases
              V2K_value 0 0 1 1 1 (99/100) 1 (607/100) 2 (3/1000)
              oblique (oblique_reflected (99/100))
              oblique Continue (oblique_reflected (99/100)))
    as [Hrun Hstep].
  - lra.
  - lra.
  - assert (Hsame : prob (oblique_reflected (99/100)) <= prob oblique).
    { apply Hstep; [cbn; lra |].
      apply oblique_step; [exact oblique_reflectivity | lra]. }
    apply Hrun; [cbn; lra |].
    unfold propagate.
    now rewrite (oblique_run _ _ _ _ _ _ _ oblique_reflectivity) by lra.
Defined.

Lemma miss_of_opening_absorbs_witness :
  propagate V2K_value 0 0 1 1 1 (99/100) (219/10000) (607/100) 2 (3/1000) beside
  = Ok (set_prob beside 0) /\
  bounces V2K_value 0 0 1 1 1 (99/100) (219/10000) (607/100) 2 (3/1000) beside = 0%nat.
Proof.
  destruct (miss_of_opening_absorbs
              V2K_value 0 0 1 1 1 (99/100) (219/10000) (607/100) 2 (3/1000) beside)
    as (H1 & H2 & _).
  - cbn. lra.
  - cbn. lra.
  - split; assumption.
Defined.

Lemma zero_denominators_witness :
  propagate V2K_value 0 0 1 1 1 (99/100) (219/10000) (607/100) 2 (3/1000) stalled
  = Fault ZeroDivision /\
  bounce_step V2K_value 0 0 1 1 1 (99/100) (219/10000) (607/100) 2 (3/1000) stalled
  = Fault ZeroDivision /\
  nth 1 (times 0 0 1 1 1 on_axis) (Fault UnboundLocal) = Fault ZeroDivision /\
  exists (c : control) (s' : neutron),
    bounce_step V2K_value 0 0 1 1 1 (99/100) (219/10000) (607/100) 2 (3/1000) on_axis
    = Ok (c, s').
Proof.
  destruct (zero_denominators
              V2K_value 0 0 1 1 1 (99/100) (219/10000) (607/100) 2 (3/1000)
              stalled stalled on_axis 1)
    as (H1 & H2 & H3).
  destruct H3 as (H3 & H4).
  - lia.
  - kernel_locals. unfold on_axis. ring.
  - destruct H4 as (c & s' & H4 & _).
    + cbn. lra.
    + lra.
    + repeat split.
      * apply H1. reflexivity.
      * apply H2. reflexivity.
      * exact H3.
      * exists c, s'. exact H4.
Defined.

Lemma bounce_cap_witness :
  propagate V2K_value 0 0 1 1 1 1 1 (607/100) 2 (3/1000) (zigzag 0)
  = Ok (zigzag max_bounces) /\
  bounces V2K_value 0 0 1 1 1 1 1 (607/100) 2 (3/1000) (zigzag 0) = max_bounces /\
  0 < prob (zigzag max_bounces).
Proof.
  assert (Hin : to_entrance (zigzag 0) (- z (zigzag 0) / vz (zigzag 0)) = zigzag 0).
  { unfold to_entrance. cbn. f_equal; lra. }
  apply (proj2 (bounce_cap V2K_value 0 0 1 1 1 1 1 (607/100) 2 (3/1000)
                           (zigzag 0) (zigzag max_bounces))).
  - cbn. lra.
  - rewrite Hin. apply misses_opening_false; cbn; lra.
  - rewrite Hin. apply (zigzag_continues max_bounces 0). lia.
Defined.

(** ** The particle and the mirror planes *)

Lemma wall_not_crossed (N vd bt : R) :
  N <= 0 -> 0 <= bt -> (vd < 0 -> bt <= N / vd) -> N - bt * vd <= 0.
Proof.
  intros HN Hbt Hreach.
  destruct (Rlt_dec vd 0) as [Hvd | Hvd].
  - specialize (Hreach Hvd).
    assert (E : N / vd * vd = N) by (field; lra).
    nra.
  - nra.
Qed.

Lemma quotient_nonpos_neg (a b : R) : a <= 0 -> b < 0 -> 0 <= a / b.
Proof.
  intros Ha Hb. replace (a / b) with (- a * / - b) by (field; lra).
  apply Rmult_le_pos; [lra |]. apply Rlt_le, Rinv_0_lt_compat. lra.
Qed.

Section RegionProperties.

Variable V2K : R.
Variables ww hh hw1 hh1 l : R.
Variables R0 Qc alpha m W : R.

Local Abbreviation vdots := (vdots ww hh l).
Local Abbreviation times := (times ww hh hw1 hh1 l).
Local Abbreviation plane_term := (plane_term ww hh hw1 hh1 l).
Local Abbreviation between := (between ww hh hw1 hh1 l).
Local Abbreviation bounce_step := (bounce_step V2K ww hh hw1 hh1 l R0 Qc alpha m W).
Local Abbreviation bounce_loop := (bounce_loop V2K ww hh hw1 hh1 l R0 Qc alpha m W).
Local Abbreviation misses_opening := (misses_opening hw1 hh1).
Local Abbreviation run_propagate := (run_propagate V2K ww hh hw1 hh1 l R0 Qc alpha m W).
Local Abbreviation propagate := (propagate V2K ww hh hw1 hh1 l R0 Qc alpha m W).

Lemma between_plane_terms (s : neutron) :
  between s <-> forall j, (1 <= j <= 4)%nat -> plane_term j s <= 0.
Proof.
  split.
  - intros (H1 & H2 & H3 & H4) j Hj.
    destruct j as [| [| [| [| [| j]]]]]; try lia; assumption.
  - intros H. repeat split; [apply (H 1%nat) | apply (H 2%nat) | apply (H 3%nat) | apply (H 4%nat)]; lia.
Qed.

(** The time of a mirror is the quotient of its plane term by its
    directional term. *)
Lemma times_plane_term (s : neutron) (j : nat) :
  (1 <= j <= 4)%nat ->
  nth j (times s) (Fault UnboundLocal) = plane_term j s /? nth j (vdots s) 0.
Proof.
  intros Hj. destruct j as [| [| [| [| [| j]]]]]; try lia; reflexivity.
Qed.

(** Flying for the time [bt] changes a plane term by [bt] times the
    directional term. *)
Lemma plane_term_after (s : neutron) (bt R : R) (v' : vec) (j : nat) :
  (1 <= j <= 4)%nat ->
  plane_term j (after_bounce s bt v' R) = plane_term j s - bt * nth j (vdots s) 0.
Proof.
  intros Hj. destruct v' as [[a b] c].
  destruct j as [| [| [| [| [| j]]]]]; try lia;
    cbv [Region.plane_term Guide.vdots nth after_bounce cv1 cv2 ch1 ch2
         vdotn_v1 vdotn_v2 vdotn_h1 vdotn_h2 av bv ah bh x y z];
    ring.
Qed.

(** What a pass that reflects the particle off mirror [side] does to
    its position and time. *)
Lemma mirror_pass (s : neutron) (c : control) (s' : neutron) :
  bounce_step s = Ok (c, s') ->
  s' = s \/
  exists (bt : R) (side : nat) (v' : vec) (R : R),
    (1 <= side <= 4)%nat /\
    select (vdots s) (times s) = Ok (Some (bt, side)) /\
    nth side (vdots s) 0 < 0 /\
    bt = plane_term side s / nth side (vdots s) 0 /\
    s' = after_bounce s bt v' R.
Proof.
  intros Hstep.
  destruct (bounce_step_inv V2K ww hh hw1 hh1 l R0 Qc alpha m W s c s' Hstep)
    as [(_ & -> & _) | (bt & side & R & Hsel & Hside & _ & _ & Hout)];
    [now left | right].
  apply absorbed_or_not_inv in Hout. destruct Hout as (-> & _).
  pose proof (select_earliest_of _ _ _ Hsel) as (_ & Hneg & Hbt & _).
  rewrite (times_plane_term s side Hside) in Hbt.
  apply fdiv_inv in Hbt. destruct Hbt as (_ & Hbt).
  eexists bt, side, _, R.
  split; [exact Hside |]. split; [exact Hsel |]. split; [exact Hneg |].
  split; [exact Hbt | reflexivity].
Qed.

Lemma on_mirror_plane_term (side : nat) (s : neutron) :
  (1 <= side <= 4)%nat -> plane_term side s = 0 -> on_mirror ww hh hw1 hh1 l side s.
Proof.
  intros Hside.
  destruct side as [| [| [| [| [| side]]]]]; try lia;
    cbv [Region.plane_term Region.on_mirror cv1 cv2 ch1 ch2]; lra.
Qed.

(** X3. A reflection happens on the mirror.  A pass either chooses
    the exit plane, and then leaves the loop with the particle where it
    was, or chooses a mirror, and then moves the particle along its
    straight flight for the time chosen to a point on the plane of
    that mirror. *)
Theorem reflection_point_on_mirror (s : neutron) (c : control) (s' : neutron) :
  bounce_step s = Ok (c, s') ->
  exists (bt : R) (side : nat),
    select (vdots s) (times s) = Ok (Some (bt, side)) /\
    ((side = 0%nat /\ c = Break /\ s' = s) \/
     ((1 <= side <= 4)%nat /\
      x s' = x s + vx s * bt /\
      y s' = y s + vy s * bt /\
      z s' = z s + vz s * bt /\
      t s' = t s + bt /\
      on_mirror ww hh hw1 hh1 l side s')).
Proof.
  intros Hstep.
  destruct (bounce_step_inv V2K ww hh hw1 hh1 l R0 Qc alpha m W s c s' Hstep)
    as [(-> & -> & bt & Hsel) | (bt & side & R & Hsel & Hside & _ & _ & Hout)].
  - exists bt, 0%nat. split; [exact Hsel |]. left. now repeat split.
  - apply absorbed_or_not_inv in Hout. destruct Hout as (-> & _).
    pose proof (select_earliest_of _ _ _ Hsel) as (_ & Hneg & Hbt & _).
    rewrite (times_plane_term s side Hside) in Hbt.
    apply fdiv_inv in Hbt. destruct Hbt as (_ & Hbt).
    exists bt, side. split; [exact Hsel |]. right.
    match goal with
    | |- context [after_bounce s bt ?v R] =>
      assert (Hon : on_mirror ww hh hw1 hh1 l side (after_bounce s bt v R));
        [| destruct v as [[a b] d]; split; [exact Hside | now repeat split]]
    end.
    apply (on_mirror_plane_term side _ Hside).
    rewrite (plane_term_after s bt R _ side Hside), Hbt. field. lra.
Qed.

(** The position and the time after a pass that starts between the
    mirrors and before the exit plane. *)
Lemma bounce_step_region (s : neutron) (c : control) (s' : neutron) :
  between s -> z s < l ->
  bounce_step s = Ok (c, s') ->
  between s' /\ z s <= z s' < l /\ t s <= t s'.
Proof.
  intros Hin Hz Hstep.
  destruct (mirror_pass s c s' Hstep)
    as [-> | (bt & side & v' & R & Hside & Hsel & Hneg & Hbt & ->)].
  - split; [exact Hin |]. split; [split |]; lra.
  - pose proof (select_earliest_of _ _ _ Hsel) as (_ & _ & _ & Hall).
    pose proof (proj1 (between_plane_terms s) Hin) as Hterms.
    assert (Hbt0 : 0 <= bt).
    { rewrite Hbt. apply quotient_nonpos_neg; [apply Hterms; exact Hside | exact Hneg]. }
    (* the exit plane lies ahead and is reached later *)
    destruct (Hall 0%nat ltac:(lia)) as (t0 & Ht0 & _ & Hlt0).
    { cbn. lra. }
    cbv [Guide.times nth t1] in Ht0. apply fdiv_inv in Ht0.
    destruct Ht0 as (Hvz & ->). specialize (Hlt0 ltac:(lia)).
    assert (Hfwd : 0 < vz s).
    { destruct (Rlt_dec 0 (vz s)) as [Hp | Hn]; [exact Hp | exfalso].
      assert (Hq : 0 <= (l - z s) / - vz s).
      { unfold Rdiv. apply Rmult_le_pos; [lra |].
        apply Rlt_le, Rinv_0_lt_compat. lra. }
      replace ((l - z s) / - vz s) with (- ((l - z s) / vz s)) in Hq by (field; lra).
      lra. }
    assert (Hexit : vz s * ((l - z s) / vz s) = l - z s) by (field; lra).
    split.
    { apply between_plane_terms. intros j Hj.
      rewrite (plane_term_after s bt R v' j Hj).
      apply wall_not_crossed; [apply Hterms; exact Hj | exact Hbt0 |].
      intros Hnj. destruct (Hall j ltac:(lia) Hnj) as (tj & Htj & Hle & _).
      rewrite (times_plane_term s j Hj) in Htj. apply fdiv_inv in Htj.
      destruct Htj as (_ & ->). exact Hle. }
    destruct v' as [[a b] d]. cbn [after_bounce z t].
    split; [split |]; nra.
Qed.

Lemma bounce_loop_region (k : nat) (s s' : neutron) :
  between s -> z s < l ->
  snd (bounce_loop k s) = Ok s' ->
  between s' /\ z s <= z s' < l /\ t s <= t s'.
Proof.
  revert s. induction k as [| k IH]; intros s Hin Hz; cbn [Guide.bounce_loop snd].
  - intros E; injection E as <-. split; [exact Hin |]. split; [split |]; lra.
  - destruct (bounce_step s) as [[c s1] | f] eqn:Hstep; [| discriminate].
    destruct (bounce_step_region s c s1 Hin Hz Hstep) as (Hin1 & Hz1 & Ht1).
    destruct c; cbn [snd].
    + intros E; injection E as <-. split; [exact Hin1 |]. split; [exact Hz1 | exact Ht1].
    + specialize (IH s1 Hin1 ltac:(lra)).
      destruct (bounce_loop k s1) as [j r]. cbn [snd] in *.
      intros E. destruct (IH E) as (Hin' & Hz' & Ht').
      split; [exact Hin' |]. split; [split |]; lra.
Qed.

(** X4. A pass never takes the particle through a mirror or through
    the exit plane: started between the mirror planes and before
    [z = l], it ends between them and before [z = l], no further back
    along the guide and no earlier in time. *)
Theorem pass_stays_in_guide (s : neutron) (c : control) (s' : neutron) :
  between s -> z s < l ->
  bounce_step s = Ok (c, s') ->
  between s' /\ z s <= z s' /\ z s' < l /\ t s <= t s'.
Proof.
  intros Hin Hz Hstep.
  destruct (bounce_step_region s c s' Hin Hz Hstep) as (H1 & (H2 & H3) & H4).
  split; [exact H1 |]. split; [exact H2 |]. split; [exact H3 | exact H4].
Qed.

Lemma misses_opening_inv (s : neutron) :
  misses_opening s = false -> - hw1 < x s < hw1 /\ - hh1 < y s < hh1.
Proof.
  unfold Guide.misses_opening. intros H.
  apply orb_false_iff in H. destruct H as (H & H4).
  apply orb_false_iff in H. destruct H as (H & H3).
  apply orb_false_iff in H. destruct H as (H1 & H2).
  apply Rleb_false in H1, H3. apply Rgeb_false in H2, H4. lra.
Qed.

(** X5. A particle that passes the opening of a guide of positive
    length comes back between the mirror planes with [0 <= z < l], and
    not earlier than it crossed the entrance plane: [propagate] never
    returns a particle on the exit plane. *)
Theorem transport_ends_inside_guide (n n' : neutron) :
  0 < l ->
  misses_opening (to_entrance n (- z n / vz n)) = false ->
  propagate n = Ok n' ->
  between n' /\ 0 <= z n' /\ z n' < l /\ t n + - z n / vz n <= t n'.
Proof.
  intros Hl Hopen. unfold Guide.propagate, Guide.run_propagate.
  destruct (- z n /? vz n) as [dt | f] eqn:Hdt; [| discriminate].
  apply fdiv_inv in Hdt. destruct Hdt as (_ & ->).
  cbv zeta. rewrite Hopen. intros Hrun.
  apply misses_opening_inv in Hopen. cbn [to_entrance x y] in Hopen.
  destruct (bounce_loop_region max_bounces (to_entrance n (- z n / vz n)) n')
    as (H1 & (H2 & H3) & H4); [| cbn; lra | exact Hrun |].
  - unfold Region.between, cv1, cv2, ch1, ch2. cbn [to_entrance x y z].
    destruct Hopen as (Hx & Hy).
    generalize dependent (x n + vx n * (- z n / vz n)).
    generalize dependent (y n + vy n * (- z n / vz n)).
    intros y0 Hy x0 Hx. repeat split; nra.
  - cbn [to_entrance z t] in H2, H4.
    split; [exact H1 |]. split; [exact H2 |]. split; [exact H3 | exact H4].
Qed.

End RegionProperties.

(** ** What the transport leaves alone *)

Section Frame.

Variable V2K : R.
Variables ww hh hw1 hh1 l : R.
Variables R0 Qc alpha m W : R.

Local Abbreviation bounce_step := (bounce_step V2K ww hh hw1 hh1 l R0 Qc alpha m W).
Local Abbreviation bounce_loop := (bounce_loop V2K ww hh hw1 hh1 l R0 Qc alpha m W).
Local Abbreviation propagate := (propagate V2K ww hh hw1 hh1 l R0 Qc alpha m W).

Lemma bounce_step_frame (s : neutron) (c : control) (s' : neutron) :
  bounce_step s = Ok (c, s') ->
  spin s' = spin s /\ speed2 s' = speed2 s.
Proof.
  intros Hstep.
  destruct (bounce_step_inv V2K ww hh hw1 hh1 l R0 Qc alpha m W s c s' Hstep)
    as [(_ & -> & _) | (bt & side & R & _ & _ & Hneg & _ & Hout)]; [now split |].
  apply absorbed_or_not_inv in Hout. destruct Hout as (-> & _).
  pose proof (normal_pos ww hh l s side Hneg) as Hnn.
  split.
  - now destruct (minus_scaled _ _ _) as [[a b] d].
  - unfold speed2. rewrite velocity_after_bounce, dot_minus_scaled_self.
    field. lra.
Qed.

Lemma bounce_loop_frame (k : nat) (s s' : neutron) :
  snd (bounce_loop k s) = Ok s' ->
  spin s' = spin s /\ speed2 s' = speed2 s.
Proof.
  revert s. induction k as [| k IH]; intros s; cbn [Guide.bounce_loop snd].
  - intros E; injection E as <-. now split.
  - destruct (bounce_step s) as [[c s1] | f] eqn:Hstep; [| discriminate].
    destruct (bounce_step_frame s c s1 Hstep) as (Hsp & Hv).
    destruct c; cbn [snd].
    + intros E; injection E as <-. now split.
    + specialize (IH s1). destruct (bounce_loop k s1) as [j r]. cbn [snd] in *.
      intros E. destruct (IH E) as (Hsp' & Hv'). split; congruence.
Qed.


(** X2. The velocity [propagate] writes back has the length of the
    velocity it read, however many reflections lie between. *)
Theorem propagate_preserves_speed (n n' : neutron) :
  propagate n = Ok n' ->
  vx n' * vx n' + vy n' * vy n' + vz n' * vz n'
  = vx n * vx n + vy n * vy n + vz n * vz n.
Proof.
  change (propagate n = Ok n' -> speed2 n' = speed2 n).
  unfold Guide.propagate, Guide.run_propagate.
  destruct (- z n /? vz n) as [dt | f]; [| discriminate].
  cbv zeta. destruct (misses_opening hw1 hh1 (to_entrance n dt)); cbn [snd].
  - intros E; injection E as <-. reflexivity.
  - intros E. now destruct (bounce_loop_frame _ _ _ E) as (_ & ->).
Qed.

Lemma bounce_loop_side_assigned (k : nat) (s : neutron) :
  snd (bounce_loop k s) <> Fault UnboundLocal.
Proof.
  revert s. induction k as [| k IH]; intros s; cbn [Guide.bounce_loop snd];
    [discriminate |].
  pose proof (bounce_step_side_assigned V2K ww hh hw1 hh1 l R0 Qc alpha m W s) as Hs.
  destruct (bounce_step s) as [[[|] s1] | f]; cbn [snd]; try discriminate.
  - specialize (IH s1). now destruct (bounce_loop k s1).
  - congruence.
Qed.

Lemma propagate_fault (n : neutron) (f : fault) :
  propagate n = Fault f -> f = ZeroDivision.
Proof.
  intros Hf. destruct f; [reflexivity | exfalso].
  revert Hf. unfold Guide.propagate, Guide.run_propagate.
  unfold fdiv. destruct (Req_dec_T (vz n) 0); [discriminate |].
  cbv zeta. destruct (misses_opening hw1 hh1 _); cbn [snd]; [discriminate |].
  apply bounce_loop_side_assigned.
Qed.

(** X13. In every pass whose exit time [(l - z) / vz] is a number,
    that is for [vz <> 0], the exit plane is taken as a candidate, so
    the local [side] is assigned in that pass before [if side == 0]
    reads it, whatever an earlier pass left in it; such a pass can fail
    only through the quotient by [W] of the reflectivity. *)
Theorem side_assigned_in_every_pass (s : neutron) :
  vz s <> 0 ->
  (exists (best_time : R) (side : nat),
      select (vdots ww hh l s) (times ww hh hw1 hh1 l s)
      = Ok (Some (best_time, side)) /\
      (side < 5)%nat) /\
  bounce_step s <> Fault UnboundLocal /\
  (W <> 0 -> exists c s', bounce_step s = Ok (c, s')).
Proof.
  intros Hvz. split; [| split].
  - destruct (select_exit_first ww hh hw1 hh1 l s Hvz) as (bt & side & Hsel).
    exists bt, side. split; [exact Hsel |].
    now destruct (select_earliest_of _ _ _ Hsel) as (Hside & _).
  - apply bounce_step_side_assigned.
  - intros HW. exact (bounce_step_total V2K ww hh hw1 hh1 l R0 Qc alpha m W s Hvz HW).
Qed.

End Frame.

(** ** The straight guide *)

Section Straight.

Variable V2K : R.
Variables hw1 hh1 l : R.
Variables R0 Qc alpha m W : R.

Local Abbreviation bounce_step := (bounce_step V2K 0 0 hw1 hh1 l R0 Qc alpha m W).
Local Abbreviation bounce_loop := (bounce_loop V2K 0 0 hw1 hh1 l R0 Qc alpha m W).
Local Abbreviation propagate := (propagate V2K 0 0 hw1 hh1 l R0 Qc alpha m W).

(** Without taper the mirrors are parallel to the axis and a reflection
    leaves [vz] alone. *)
Lemma straight_step_vz (s : neutron) (c : control) (s' : neutron) :
  bounce_step s = Ok (c, s') -> vz s' = vz s.
Proof.
  intros Hstep.
  destruct (bounce_step_inv V2K 0 0 hw1 hh1 l R0 Qc alpha m W s c s' Hstep)
    as [(_ & -> & _) | (bt & side & R & _ & Hside & _ & _ & Hout)]; [reflexivity |].
  apply absorbed_or_not_inv in Hout. destruct Hout as (-> & _).
  destruct side as [| [| [| [| [| side]]]]]; try lia;
    cbv [normal velocity minus_scaled after_bounce vz]; ring.
Qed.

Lemma straight_loop_completes (k : nat) (s : neutron) :
  vz s <> 0 -> W <> 0 ->
  exists s', snd (bounce_loop k s) = Ok s' /\ vz s' = vz s.
Proof.
  intros Hvz HW. revert s Hvz.
  induction k as [| k IH]; intros s Hvz; cbn [Guide.bounce_loop snd].
  - now exists s.
  - destruct (bounce_step_total V2K 0 0 hw1 hh1 l R0 Qc alpha m W s Hvz HW)
      as (c & s1 & Hstep).
    rewrite Hstep. pose proof (straight_step_vz s c s1 Hstep) as Hs1.
    destruct c; cbn [snd].
    + now exists s1.
    + destruct (IH s1) as (s' & Hrun & Hs'); [congruence |].
      destruct (bounce_loop k s1) as [j r]. cbn [snd] in *.
      exists s'. split; [exact Hrun | congruence].
Qed.


End Straight.

(** ** The range of the reflectivity *)

(** X6. For a baseline [R0 >= 0] and a slope [alpha >= 0] the
    reflectivity lies between 0 and [R0] as long as
    [alpha * (Q - Qc) <= 1]. *)
Theorem calc_reflectivity_range (Q R0 Qc alpha m W R : R) :
  0 <= R0 -> 0 <= alpha -> alpha * (Q - Qc) <= 1 ->
  calc_reflectivity Q R0 Qc alpha m W = Ok R ->
  0 <= R <= R0.
Proof.
  intros HR0 Ha Hcut. unfold calc_reflectivity.
  destruct (Rgtb Q Qc) eqn:Hgt.
  - apply Rgtb_true in Hgt.
    destruct ((Q - m * Qc) /? W) as [u | f]; cbn [bind]; [| discriminate].
    intros E; injection E as <-.
    pose proof (tanh_bounds u) as Ht.
    assert (Hb : 0 <= 1 - alpha * (Q - Qc) <= 1) by nra.
    generalize dependent (1 - alpha * (Q - Qc)). intros b Hb.
    generalize dependent (tanh u). intros th Hth.
    assert (Hp : 0 <= (1 - th) * b / 2 <= 1) by nra.
    generalize dependent ((1 - th) * b / 2). intros p Hp. nra.
  - intros E; injection E as <-. lra.
Qed.

Lemma calc_reflectivity_negative (Q R0 Qc alpha m W R : R) :
  0 < R0 -> Q > Qc -> alpha * (Q - Qc) > 1 ->
  calc_reflectivity Q R0 Qc alpha m W = Ok R -> R < 0.
Proof.
  intros HR0 Hgt Hcut. rewrite (calc_reflectivity_above _ _ _ _ _ _ Hgt).
  destruct ((Q - m * Qc) /? W) as [u | f]; cbn [bind]; [| discriminate].
  intros E; injection E as <-.
  pose proof (tanh_bounds u) as Ht.
  assert (Hb : 1 - alpha * (Q - Qc) < 0) by lra.
  generalize dependent (1 - alpha * (Q - Qc)). intros b Hb.
  generalize dependent (tanh u). intros th Hth.
  assert (Hp : (1 - th) * b < 0) by nra.
  replace (R0 * (1 - th) * b / 2) with (R0 * ((1 - th) * b) / 2) by lra.
  generalize dependent ((1 - th) * b). intros p Hp. nra.
Qed.

Section Cutoff.

Variable V2K : R.
Variables ww hh hw1 hh1 l : R.
Variables R0 Qc alpha m W : R.

Local Abbreviation vdots := (vdots ww hh l).
Local Abbreviation times := (times ww hh hw1 hh1 l).
Local Abbreviation normal := (normal ww hh l).
Local Abbreviation bounce_step := (bounce_step V2K ww hh hw1 hh1 l R0 Qc alpha m W).


End Cutoff.

(** ** The grid of the batch kernel *)

Lemma number_of_blocks_div (N : nat) :
  number_of_blocks N = ((Z.of_nat N + 511) / 512)%Z.
Proof.
  unfold number_of_blocks, Qceiling, Qfloor, Qdiv, Qmult, Qinv, Qopp, inject_Z,
    threads_per_block.
  cbn [Qnum Qden].
  change (Z.of_nat 512) with 512%Z. cbn [Z.mul Pos.mul Z.opp].
  rewrite Z.mul_1_r. cbn [Qden].
  Z.div_mod_to_equations. lia.
Qed.

(** X8. The grid is the smallest that covers the batch: with
    [B = number_of_blocks N] blocks of 512 threads,
    [512 * (B - 1) < N <= 512 * B], and every row index below [N] is the
    [cuda.grid(1)] of exactly one thread of exactly one of the [B]
    blocks. *)
Theorem grid_covers_batch (N x : nat) :
  (number_of_blocks N * 512 - 512 < Z.of_nat N <= number_of_blocks N * 512)%Z /\
  ((x < N)%nat ->
   exists blockIdx threadIdx : nat,
     (Z.of_nat blockIdx < number_of_blocks N)%Z /\
     (threadIdx < threads_per_block)%nat /\
     grid_index blockIdx threadIdx = x /\
     forall b th : nat,
       (th < threads_per_block)%nat -> grid_index b th = x ->
       b = blockIdx /\ th = threadIdx).
Proof.
  rewrite number_of_blocks_div. split.
  - Z.div_mod_to_equations. lia.
  - intros Hx. exists (x / 512)%nat, (x mod 512)%nat.
    pose proof (Nat.div_mod_eq x 512) as Hdm.
    pose proof (Nat.mod_upper_bound x 512 ltac:(lia)) as Hm.
    unfold grid_index, threads_per_block.
    repeat split; try lia.
    Z.div_mod_to_equations. lia.
Qed.

Lemma grid_covers_batch_witness :
  exists blockIdx threadIdx : nat,
    (Z.of_nat blockIdx < number_of_blocks 1000)%Z /\
    (threadIdx < threads_per_block)%nat /\
    grid_index blockIdx threadIdx = 600%nat.
Proof.
  destruct (proj2 (grid_covers_batch 1000 600)) as (b & th & H1 & H2 & H3 & _).
  - lia.
  - exists b, th. repeat split; assumption.
Defined.

(** ** Rows of the array *)

Lemma set_row_length (a : list neutron) (x : nat) (r : neutron) :
  length (set_row a x r) = length a.
Proof.
  revert x. induction a as [| r0 a IH]; intros [| x]; cbn; try reflexivity.
  now rewrite IH.
Qed.

Lemma nth_error_set_row_eq (a : list neutron) (x : nat) (r : neutron) :
  (x < length a)%nat -> nth_error (set_row a x r) x = Some r.
Proof.
  revert x. induction a as [| r0 a IH]; intros [| x]; cbn; try lia; try reflexivity.
  intros Hx. apply IH. lia.
Qed.

Lemma nth_error_set_row_neq (a : list neutron) (x y : nat) (r : neutron) :
  y <> x -> nth_error (set_row a x r) y = nth_error a y.
Proof.
  revert x y. induction a as [| r0 a IH]; intros [| x] [| y]; cbn;
    try reflexivity; try congruence.
  intros Hxy. apply IH. congruence.
Qed.

Lemma set_row_comm (a : list neutron) (x y : nat) (rx ry : neutron) :
  x <> y -> set_row (set_row a x rx) y ry = set_row (set_row a y ry) x rx.
Proof.
  revert x y. induction a as [| r0 a IH]; intros [| x] [| y]; cbn;
    try reflexivity; try congruence.
  intros Hxy. f_equal. apply IH. congruence.
Qed.

Lemma set_row_app (done rest : list neutron) (r r' : neutron) :
  set_row (done ++ r :: rest) (length done) r' = done ++ r' :: rest.
Proof. induction done as [| d done IH]; cbn; [reflexivity | now rewrite IH]. Qed.

Lemma bind_assoc (A B C : Type) (c : result A) (f : A -> result B) (g : B -> result C) :
  bind (bind c f) g = bind c (fun a => bind (f a) g).
Proof. now destruct c. Qed.

(** ** The threads of the batch kernel *)

Lemma grid_threads_seq (blocks : nat) :
  grid_threads blocks = seq 0 (blocks * threads_per_block).
Proof.
  unfold grid_threads.
  induction blocks as [| b IH].
  - reflexivity.
  - rewrite seq_S, flat_map_app, IH. cbn [flat_map Nat.add].
    rewrite app_nil_r.
    replace (S b * threads_per_block)%nat
      with (b * threads_per_block + threads_per_block)%nat by lia.
    rewrite seq_app. cbn [Nat.add]. apply f_equal.
    transitivity (map (fun th => th + b * threads_per_block)%nat (seq 0 threads_per_block));
      [reflexivity |].
    generalize (b * threads_per_block)%nat as k. intros k.
    change (seq k threads_per_block) with (seq (0 + k) threads_per_block).
    generalize 0%nat as a. generalize threads_per_block as T.
    induction T as [| T IHT]; intros a; cbn [seq map]; [reflexivity |].
    apply f_equal2; [reflexivity | exact (IHT (S a))].
Qed.

Section Threads.

Variable V2K : R.
Variables ww hh hw1 hh1 l : R.
Variables R0 Qc alpha m W : R.

Local Abbreviation propagate := (propagate V2K ww hh hw1 hh1 l R0 Qc alpha m W).
Local Abbreviation process_kernel := (process_kernel V2K ww hh hw1 hh1 l R0 Qc alpha m W).
Local Abbreviation run_threads := (run_threads V2K ww hh hw1 hh1 l R0 Qc alpha m W).
Local Abbreviation transport_all := (transport_all V2K ww hh hw1 hh1 l R0 Qc alpha m W).

Lemma process_kernel_idle (neutrons : list neutron) (x : nat) :
  (length neutrons <= x)%nat -> process_kernel neutrons x = Ok neutrons.
Proof.
  intros Hx. unfold Batch.process_kernel.
  now rewrite (proj2 (nth_error_None neutrons x) Hx).
Qed.

Lemma process_kernel_row (neutrons : list neutron) (x : nat) (row : neutron) :
  nth_error neutrons x = Some row ->
  process_kernel neutrons x
  = bind (propagate row) (fun row' => Ok (set_row neutrons x row')).
Proof. intros Hrow. unfold Batch.process_kernel. now rewrite Hrow. Qed.

Lemma process_kernel_length (neutrons out : list neutron) (x : nat) :
  process_kernel neutrons x = Ok out -> length out = length neutrons.
Proof.
  unfold Batch.process_kernel.
  destruct (nth_error neutrons x) as [row |].
  - destruct (propagate row) as [row' | f]; cbn [bind]; [| discriminate].
    intros E; injection E as <-. apply set_row_length.
  - intros E; injection E as <-. reflexivity.
Qed.

(** X9. A thread of the kernel works on its own row and on nothing
    else: beyond the end of the array it does nothing; within, the
    array keeps its length, all other rows stay as they are, and row
    [x] holds what [propagate] made of it. *)
Theorem process_kernel_touches_one_row
        (neutrons out : list neutron) (x y : nat) :
  ((length neutrons <= x)%nat -> process_kernel neutrons x = Ok neutrons) /\
  (process_kernel neutrons x = Ok out ->
   length out = length neutrons /\
   (y <> x -> nth_error out y = nth_error neutrons y) /\
   ((x < length neutrons)%nat ->
    exists row row',
      nth_error neutrons x = Some row /\
      propagate row = Ok row' /\
      nth_error out x = Some row')).
Proof.
  split; [apply process_kernel_idle |].
  destruct (nth_error neutrons x) as [row |] eqn:Hrow.
  - rewrite (process_kernel_row neutrons x row Hrow).
    destruct (propagate row) as [row' | f] eqn:Hrun; cbn [bind]; [| discriminate].
    intros E; injection E as <-.
    split; [apply set_row_length |].
    split; [intros Hy; now apply nth_error_set_row_neq |].
    intros Hx. exists row, row'.
    split; [reflexivity |]. split; [exact Hrun | now apply nth_error_set_row_eq].
  - apply nth_error_None in Hrow.
    rewrite (process_kernel_idle neutrons x Hrow).
    intros E; injection E as <-.
    split; [reflexivity |]. split; [reflexivity | lia].
Qed.

(** Two threads with different indices can take their turns in either
    order. *)
Lemma process_kernel_comm (neutrons : list neutron) (x y : nat) :
  x <> y ->
  bind (process_kernel neutrons x) (fun a => process_kernel a y)
  = bind (process_kernel neutrons y) (fun a => process_kernel a x).
Proof.
  intros Hxy.
  destruct (nth_error neutrons x) as [rx |] eqn:Hx;
    destruct (nth_error neutrons y) as [ry |] eqn:Hy.
  - rewrite (process_kernel_row _ _ _ Hx), (process_kernel_row _ _ _ Hy).
    destruct (propagate rx) as [rx' | fx] eqn:Hrx;
      destruct (propagate ry) as [ry' | fy] eqn:Hry; cbn [bind].
    + rewrite (process_kernel_row (set_row neutrons x rx') y ry)
        by (rewrite nth_error_set_row_neq; [exact Hy | congruence]).
      rewrite (process_kernel_row (set_row neutrons y ry') x rx)
        by (rewrite nth_error_set_row_neq; [exact Hx | congruence]).
      rewrite Hrx, Hry. cbn [bind]. f_equal. now apply set_row_comm.
    + rewrite (process_kernel_row (set_row neutrons x rx') y ry)
        by (rewrite nth_error_set_row_neq; [exact Hy | congruence]).
      now rewrite Hry.
    + rewrite (process_kernel_row (set_row neutrons y ry') x rx)
        by (rewrite nth_error_set_row_neq; [exact Hx | congruence]).
      now rewrite Hrx.
    + apply (propagate_fault V2K ww hh hw1 hh1 l R0 Qc alpha m W) in Hrx, Hry.
      congruence.
  - apply nth_error_None in Hy.
    rewrite (process_kernel_idle neutrons y Hy). cbn [bind].
    destruct (process_kernel neutrons x) as [a |] eqn:Hpx; cbn [bind]; [| reflexivity].
    apply process_kernel_idle.
    rewrite (process_kernel_length neutrons a x Hpx). exact Hy.
  - apply nth_error_None in Hx.
    rewrite (process_kernel_idle neutrons x Hx). cbn [bind].
    destruct (process_kernel neutrons y) as [a |] eqn:Hpy; cbn [bind]; [| reflexivity].
    symmetry. apply process_kernel_idle.
    rewrite (process_kernel_length neutrons a y Hpy). exact Hx.
  - apply nth_error_None in Hx, Hy.
    rewrite (process_kernel_idle neutrons x Hx), (process_kernel_idle neutrons y Hy).
    cbn [bind].
    now rewrite (process_kernel_idle neutrons x Hx), (process_kernel_idle neutrons y Hy).
Qed.

Lemma run_threads_fault (schedule : list nat) (f : fault) :
  fold_left (fun acc x => bind acc (fun a => process_kernel a x)) schedule (Fault f)
  = Fault f.
Proof. induction schedule as [| x schedule IH]; [reflexivity | exact IH]. Qed.

Lemma run_threads_cons (x : nat) (schedule : list nat) (neutrons : list neutron) :
  run_threads (x :: schedule) neutrons
  = bind (process_kernel neutrons x) (fun a => run_threads schedule a).
Proof.
  unfold Batch.run_threads. cbn [fold_left bind].
  destruct (process_kernel neutrons x) as [a | f]; cbn [bind]; [reflexivity |].
  apply run_threads_fault.
Qed.

Lemma run_threads_idle (schedule : list nat) (neutrons : list neutron) :
  (forall x, In x schedule -> (length neutrons <= x)%nat) ->
  run_threads schedule neutrons = Ok neutrons.
Proof.
  induction schedule as [| x schedule IH]; intros Hidle; [reflexivity |].
  rewrite run_threads_cons, (process_kernel_idle neutrons x) by (apply Hidle; now left).
  cbn [bind]. apply IH. intros y Hy. apply Hidle. now right.
Qed.

(** The order in which distinct threads take their turns does not
    matter. *)
Lemma run_threads_permutation (schedule schedule' : list nat) :
  Permutation schedule schedule' -> NoDup schedule ->
  forall neutrons, run_threads schedule neutrons = run_threads schedule' neutrons.
Proof.
  induction 1 as [| x s1 s2 Hperm IH | x y s1 | s1 s2 s3 H12 IH12 H23 IH23];
    intros Hnd neutrons.
  - reflexivity.
  - rewrite !run_threads_cons. inversion Hnd as [| ? ? _ Hnd1]; subst.
    destruct (process_kernel neutrons x) as [a | f]; cbn [bind]; [| reflexivity].
    now apply IH.
  - rewrite !run_threads_cons.
    assert (Hxy : y <> x).
    { inversion Hnd as [| ? ? Hnotin _]; subst. intros ->. apply Hnotin. now left. }
    transitivity (bind (bind (process_kernel neutrons y) (fun a => process_kernel a x))
                       (fun a => run_threads s1 a)).
    + destruct (process_kernel neutrons y) as [a | f]; cbn [bind]; [| reflexivity].
      now rewrite run_threads_cons.
    + rewrite (process_kernel_comm neutrons y x Hxy).
      destruct (process_kernel neutrons x) as [a | f]; cbn [bind]; [| reflexivity].
      now rewrite run_threads_cons.
  - rewrite (IH12 Hnd). apply IH23. exact (Permutation_NoDup H12 Hnd).
Qed.

(** The threads in the order of their indices. *)
Lemma run_threads_in_order (rest done : list neutron) (M : nat) :
  (length rest <= M)%nat ->
  run_threads (seq (length done) M) (done ++ rest)
  = bind (transport_all rest) (fun rest' => Ok (done ++ rest')).
Proof.
  revert done M. induction rest as [| row rest IH]; intros done M HM.
  - cbn [Batch.transport_all bind]. apply run_threads_idle.
    intros x Hx. apply in_seq in Hx. rewrite app_nil_r. lia.
  - destruct M as [| M]; [cbn in HM; lia |].
    cbn [seq]. rewrite run_threads_cons.
    rewrite (process_kernel_row (done ++ row :: rest) (length done) row)
      by (rewrite nth_error_app2, Nat.sub_diag by lia; reflexivity).
    cbn [Batch.transport_all].
    destruct (propagate row) as [row' | f]; cbn [bind]; [| reflexivity].
    rewrite set_row_app.
    replace (done ++ row' :: rest) with ((done ++ [row']) ++ rest)
      by (now rewrite <- app_assoc).
    replace (S (length done)) with (length (done ++ [row']))
      by (rewrite length_app; cbn; lia).
    rewrite IH by (cbn in HM; lia).
    destruct (transport_all rest) as [rest' | f]; cbn [bind]; [| reflexivity].
    now rewrite <- app_assoc.
Qed.

(** X10. The outcome of the batch does not depend on the order in
    which the threads of the grid run: whatever the schedule of the
    [number_of_blocks * 512] threads launched for a batch that is not
    empty, every row is transported once by [propagate], as if the rows
    were taken one after the other. *)
Theorem batch_is_schedule_independent
        (schedule : list nat) (neutrons : list neutron) :
  neutrons <> [] ->
  Permutation schedule
              (grid_threads (Z.to_nat (number_of_blocks (length neutrons)))) ->
  run_threads schedule neutrons = transport_all neutrons.
Proof.
  intros _ Hperm.
  rewrite grid_threads_seq in Hperm.
  assert (Hnd : NoDup schedule).
  { apply (Permutation_NoDup (Permutation_sym Hperm)). apply seq_NoDup. }
  rewrite (run_threads_permutation _ _ Hperm Hnd).
  rewrite (run_threads_in_order neutrons [] _).
  - cbn [app length]. now destruct (transport_all neutrons).
  - rewrite number_of_blocks_div. unfold threads_per_block.
    assert (H : (0 <= (Z.of_nat (length neutrons) + 511) / 512)%Z)
      by (Z.div_mod_to_equations; lia).
    apply Nat2Z.inj_le. rewrite Nat2Z.inj_mul, Z2Nat.id by exact H.
    change (Z.of_nat 512) with 512%Z.
    Z.div_mod_to_equations. lia.
Qed.

End Threads.

(** ** The guide the constructor builds *)


(** X11. The neutron the constructor aims at the side of the new guide
    does meet a mirror: for positive entrance sizes and length it
    passes the opening, and the first pass chooses a mirror, at a time
    before the exit time 2. *)
Theorem warm_up_is_reflected (w1 h1 w2 h2 l : R) (sp : list R) :
  0 < w1 -> 0 <= w2 -> 0 < h1 -> 0 < l ->
  let '(ww, hh, hw1, hh1, l0) := geometry w1 h1 w2 h2 l in
  let s0 := to_entrance (warm_up w1 w2 l sp)
                        (- z (warm_up w1 w2 l sp) / vz (warm_up w1 w2 l sp)) in
  misses_opening hw1 hh1 s0 = false /\
  exists (bt : R) (side : nat),
    select (vdots ww hh l0 s0) (times ww hh hw1 hh1 l0 s0) = Ok (Some (bt, side)) /\
    side <> 0%nat /\
    bt <= 2 * w1 / (3 * w1 + w2) < 2.
Proof.
  intros Hw1 Hw2 Hh1 Hl. cbv [geometry]. cbv zeta.
  replace (to_entrance _ _) with (warm_up w1 w2 l sp)
    by (unfold to_entrance, warm_up; cbn [x y z vx vy vz t prob spin]; f_equal; field; lra).
  split.
  { apply misses_opening_false; unfold warm_up; cbn [x y]; lra. }
  assert (Hvz : vz (warm_up w1 w2 l sp) <> 0) by (cbn; lra).
  destruct (select_exit_first (5/10 * (w2 - w1)) (5/10 * (h2 - h1)) (5/10 * w1)
                              (5/10 * h1) l _ Hvz) as (bt & side & Hsel).
  exists bt, side. split; [exact Hsel |].
  pose proof (select_earliest_of _ _ _ Hsel) as (_ & _ & Hbt & Hall).
  assert (Hlate : 2 * w1 / (3 * w1 + w2) < 2).
  { assert (E : 2 * w1 / (3 * w1 + w2) * (3 * w1 + w2) = 2 * w1) by (field; lra).
    nra. }
  destruct (Hall 2%nat ltac:(lia)) as (t2 & Ht2 & Hle & _).
  { kernel_locals. unfold warm_up. nra. }
  assert (Et2 : t2 = 2 * w1 / (3 * w1 + w2)).
  { revert Ht2. kernel_locals. unfold warm_up. intros Ht2.
    apply fdiv_inv in Ht2. destruct Ht2 as (Hden & ->). field. split; [lra |].
    intros Hz. apply Hden. rewrite <- Hz at 1. nra. }
  split; [| split; [lra | exact Hlate]].
  intros ->. revert Hbt. kernel_locals. unfold warm_up. intros Hbt.
  apply fdiv_inv in Hbt. destruct Hbt as (_ & Hbt).
  assert (bt = 2) by (rewrite Hbt; field; lra). lra.
Qed.

(** ** The further theorems at concrete inputs *)

Lemma oblique_absorbed (V2K R0 Qc alpha m W R : R) :
  calc_reflectivity (2 * V2K) R0 Qc alpha m W = Ok R -> R <= 0 ->
  bounce_step V2K 0 0 1 1 1 R0 Qc alpha m W oblique
  = Ok (Break, oblique_reflected R).
Proof.
  intros HR Hneg. unfold oblique.
  rewrite straight_right by lra. rewrite HR. cbn [bind].
  replace (Neutron 1 0 (0 + 1 / 2 * (1 - 0)) (-1) 0 (1 / 2) [] (0 + (1 - 0)) (1 * R))
    with (oblique_reflected R) by (unfold oblique_reflected; f_equal; lra).
  unfold absorbed_or_not, oblique_reflected. cbn [prob].
  now rewrite (proj2 (Rleb_true (1 * R) 0)) by lra.
Qed.

Lemma oblique_transport :
  propagate V2K_value 0 0 1 1 1 (99/100) 1 (607/100) 2 (3/1000) oblique
  = Ok (oblique_reflected (99/100)).
Proof.
  unfold propagate.
  now rewrite (oblique_run _ _ _ _ _ _ _ oblique_reflectivity) by lra.
Qed.

Lemma oblique_pass :
  bounce_step V2K_value 0 0 1 1 1 (99/100) 1 (607/100) 2 (3/1000) oblique
  = Ok (Continue, oblique_reflected (99/100)).
Proof. apply oblique_step; [exact oblique_reflectivity | lra]. Qed.

Lemma oblique_between : between 0 0 1 1 1 oblique.
Proof. unfold between, cv1, cv2, ch1, ch2, oblique. cbn [x y z]. lra. Qed.

Lemma oblique_enters :
  misses_opening 1 1 (to_entrance oblique (- z oblique / vz oblique)) = false.
Proof. apply misses_opening_false; cbn; lra. Qed.

Lemma beside_transport :
  propagate V2K_value 0 0 1 1 1 (99/100) 1 (607/100) 2 (3/1000) beside
  = Ok (set_prob beside 0).
Proof.
  unfold propagate, run_propagate.
  rewrite fdiv_ok by (cbn; lra). cbv zeta.
  rewrite misses_opening_true by (cbn; lra). reflexivity.
Qed.


Lemma propagate_preserves_speed_witness :
  vx (oblique_reflected (99/100)) * vx (oblique_reflected (99/100))
  + vy (oblique_reflected (99/100)) * vy (oblique_reflected (99/100))
  + vz (oblique_reflected (99/100)) * vz (oblique_reflected (99/100))
  = vx oblique * vx oblique + vy oblique * vy oblique + vz oblique * vz oblique.
Proof.
  exact (propagate_preserves_speed V2K_value 0 0 1 1 1 (99/100) 1 (607/100) 2 (3/1000)
                                   oblique (oblique_reflected (99/100)) oblique_transport).
Defined.

Lemma reflection_point_on_mirror_witness :
  exists (bt : R) (side : nat),
    select (vdots 0 0 1 oblique) (times 0 0 1 1 1 oblique) = Ok (Some (bt, side)) /\
    (1 <= side <= 4)%nat /\
    x (oblique_reflected (99/100)) = x oblique + vx oblique * bt /\
    on_mirror 0 0 1 1 1 side (oblique_reflected (99/100)).
Proof.
  destruct (reflection_point_on_mirror
              V2K_value 0 0 1 1 1 (99/100) 1 (607/100) 2 (3/1000)
              oblique Continue (oblique_reflected (99/100)) oblique_pass)
    as (bt & side & Hsel & [(_ & Hc & _) | (Hside & Hx & _ & _ & _ & Hon)]).
  - discriminate Hc.
  - exists bt, side. repeat split; try assumption; lia.
Defined.

Lemma pass_stays_in_guide_witness :
  between 0 0 1 1 1 (oblique_reflected (99/100)) /\
  z (oblique_reflected (99/100)) < 1.
Proof.
  destruct (pass_stays_in_guide
              V2K_value 0 0 1 1 1 (99/100) 1 (607/100) 2 (3/1000)
              oblique Continue (oblique_reflected (99/100)))
    as (H1 & _ & H3 & _).
  - exact oblique_between.
  - cbn. lra.
  - exact oblique_pass.
  - split; assumption.
Defined.

Lemma transport_ends_inside_guide_witness :
  between 0 0 1 1 1 (oblique_reflected (99/100)) /\
  0 <= z (oblique_reflected (99/100)) /\
  z (oblique_reflected (99/100)) < 1.
Proof.
  destruct (transport_ends_inside_guide
              V2K_value 0 0 1 1 1 (99/100) 1 (607/100) 2 (3/1000)
              oblique (oblique_reflected (99/100)))
    as (H1 & H2 & H3 & _).
  - lra.
  - exact oblique_enters.
  - exact oblique_transport.
  - split; [exact H1 | split; [exact H2 | exact H3]].
Defined.


Lemma calc_reflectivity_range_witness :
  0 <= 99/100 * (1 - tanh ((1 - 2 * (1/2)) / (3/1000))) * (1 - 1 * (1 - 1/2)) / 2
    <= 99/100.
Proof.
  apply (calc_reflectivity_range 1 (99/100) (1/2) 1 2 (3/1000)).
  - lra.
  - lra.
  - lra.
  - apply calc_reflectivity_above_value; lra.
Defined.

Lemma oblique_momentum_transfer :
  2 * V2K_value * Rabs (dot (velocity oblique) (normal 0 0 1 2))
  / sqrt (dot (normal 0 0 1 2) (normal 0 0 1 2))
  = 2 * V2K_value.
Proof.
  cbv [normal dot velocity oblique vx vy vz].
  replace (1 * - (1) + 0 * 0 + 1 / 2 * 0) with (-1) by lra.
  replace (- (1) * - (1) + 0 * 0 + 0 * 0) with 1 by lra.
  rewrite sqrt_1, Rabs_left by lra. lra.
Qed.

Lemma steep_reflectivity :
  exists R : R,
    calc_reflectivity (2 * V2K_value) (99/100) V2K_value 1000 2 (3/1000) = Ok R /\
    R < 0.
Proof.
  destruct (calc_reflectivity (2 * V2K_value) (99/100) V2K_value 1000 2 (3/1000))
    as [R | f] eqn:HR.
  - exists R. split; [reflexivity |].
    apply (calc_reflectivity_negative (2 * V2K_value) (99/100) V2K_value 1000 2 (3/1000) R);
      [lra | unfold V2K_value; lra | unfold V2K_value; lra | exact HR].
  - rewrite calc_reflectivity_above_value in HR
      by (unfold V2K_value; lra). discriminate.
Qed.


Lemma process_kernel_touches_one_row_witness :
  process_kernel V2K_value 0 0 1 1 1 (99/100) 1 (607/100) 2 (3/1000)
                 [oblique; beside] 5
  = Ok [oblique; beside] /\
  length [oblique; set_prob beside 0] = length [oblique; beside] /\
  nth_error [oblique; set_prob beside 0] 0 = nth_error [oblique; beside] 0.
Proof.
  split.
  - apply (proj1 (process_kernel_touches_one_row
                    V2K_value 0 0 1 1 1 (99/100) 1 (607/100) 2 (3/1000)
                    [oblique; beside] [] 5 0)).
    cbn. lia.
  - destruct (proj2 (process_kernel_touches_one_row
                       V2K_value 0 0 1 1 1 (99/100) 1 (607/100) 2 (3/1000)
                       [oblique; beside] [oblique; set_prob beside 0] 1 0))
      as (H1 & H2 & _).
    + unfold process_kernel. cbn [nth_error]. rewrite beside_transport. reflexivity.
    + split; [exact H1 | apply H2; lia].
Defined.

Lemma batch_is_schedule_independent_witness :
  run_threads V2K_value 0 0 1 1 1 (99/100) 1 (607/100) 2 (3/1000)
              (rev (grid_threads (Z.to_nat (number_of_blocks 2)))) [oblique; beside]
  = transport_all V2K_value 0 0 1 1 1 (99/100) 1 (607/100) 2 (3/1000)
                  [oblique; beside].
Proof.
  apply (batch_is_schedule_independent
           V2K_value 0 0 1 1 1 (99/100) 1 (607/100) 2 (3/1000)
           (rev (grid_threads (Z.to_nat (number_of_blocks 2)))) [oblique; beside]).
  - discriminate.
  - apply Permutation_sym, Permutation_rev.
Defined.


Lemma warm_up_is_reflected_witness :
  misses_opening (5/10 * 2) (5/10 * 2)
                 (to_entrance (warm_up 2 2 1 [])
                              (- z (warm_up 2 2 1 []) / vz (warm_up 2 2 1 [])))
  = false.
Proof.
  apply (proj1 (warm_up_is_reflected 2 2 2 2 1 [] ltac:(lra) ltac:(lra) ltac:(lra) ltac:(lra))).
Defined.

(** ** A choice that lies in the past *)

Lemma sqrt_25 : sqrt 25 = 5.
Proof. replace 25 with (5 * 5) by lra. apply sqrt_square. lra. Qed.

Lemma converging_first_select :
  select (vdots (-3) 0 4 converging_start) (times (-3) 0 4 1 4 converging_start)
  = Ok (Some (16/7, 2%nat)).
Proof. apply select_unique. unfold converging_start. settle_earliest. Qed.

(** The first pass of [converging_start]: off the right mirror, and
    back towards the entrance. *)
Lemma converging_first_pass :
  bounce_step V2K_value (-3) 0 4 1 4 (99/100) 1 (607/100) 2 (3/1000) converging_start
  = Ok (Continue, converging_reflected).
Proof.
  destruct (bounce_step_mirror V2K_value (-3) 0 4 1 4 (99/100) 1 (607/100) 2 (3/1000)
                               converging_start _ _ converging_first_select ltac:(lia))
    as (_ & _ & ->).
  cbv [normal dot velocity minus_scaled after_bounce converging_start
       x y z vx vy vz t prob spin].
  replace (- (4) * - (4) + 0 * 0 + -3 * -3) with 25 by lra.
  rewrite sqrt_25.
  rewrite calc_reflectivity_below by (unfold V2K_value; lra).
  cbn [bind]. unfold absorbed_or_not. cbn [prob].
  rewrite (proj2 (Rleb_false (1 * (99 / 100)) 0)) by lra.
  do 2 f_equal. unfold converging_reflected. f_equal; lra.
Qed.


Lemma side_assigned_in_every_pass_witness :
  exists (c : control) (s' : neutron),
    bounce_step V2K_value 0 0 1 1 1 (99/100) 1 (607/100) 2 (3/1000) oblique
    = Ok (c, s').
Proof.
  apply (proj2 (proj2 (side_assigned_in_every_pass
                         V2K_value 0 0 1 1 1 (99/100) 1 (607/100) 2 (3/1000) oblique
                         ltac:(cbn; lra)))).
  lra.
Defined.
